(** * Jump-cube: the per-frame simulation of the endless runner

    Shallow embedding of the game logic of the two versions of the [App]
    component (called [App1] and [App2] below), of [constants] and of [types].

    Number model.  A TypeScript [number] is an IEEE double; here it is an exact
    rational ([Q]).  Arithmetic identities are therefore stated up to [==]
    ([Qeq]); rounding is not modelled.  [Qdiv] by zero is [0] where the double
    division gives an infinity or NaN; this only concerns [speed = 0], which no
    episode with non-negative frame times reaches ([speed] starts at
    [INITIAL_SPEED] and only grows).

    React model.  One call of [gameLoop] sees the state snapshot captured by its
    closure.  A tick is modelled on the snapshot that is also the current
    state, so the functional updates [setX(prev => ...)] and the direct reads
    of the closure agree on what the previous state is.  The mutable refs
    [lastTimeRef] and [nextObstacleTimeRef] are fields of the game value;
    the playing of sounds, the animation-frame handle and the markup are left
    out.

    Randomness.  [Math.random()] is an input: each tick receives the two draws
    it may consume, in the order of the calls in the source. *)

From Stdlib Require Import QArith Qround Qminmax Lqa ZArith Lia List String Bool.
From Stdlib Require Import DecimalString DecimalZ DecimalPos Ascii Sorted.
Import ListNotations.

Open Scope Q_scope.

(** ** Comparisons on numbers *)

(** [a < b] as a test: the source uses [<], [>], [<=] and [>=], written here
    with the one decidable order of [Q]. *)
Definition Qlt_bool (a b : Q) : bool := negb (Qle_bool b a).

(** ** types.ts *)

Inductive GameState := waiting | running | gameOver.

Inductive DinosaurStatus := st_running | st_jumping | st_ducking.

Record DinosaurState := mkDino {
  y : Q;
  vy : Q;
  status : DinosaurStatus
}.

Record Obstacle := mkObstacle {
  x : Q;
  width : Q;
  height : Q;
  type : string
}.

Record ObstacleConfig := mkConfig {
  cfg_width : Q;
  cfg_height : Q
}.

(** ** constants.ts *)

Definition GAME_WIDTH : Q := 800.
Definition GAME_HEIGHT : Q := 250.
Definition GROUND_Y : Q := GAME_HEIGHT - 20.

Definition GRAVITY : Q := 1800.
Definition JUMP_FORCE : Q := 650.

Definition DINO_RUNNING_DIMENSIONS : ObstacleConfig := mkConfig 44 47.
Definition DINO_DUCKING_DIMENSIONS : ObstacleConfig := mkConfig 59 30.

Definition INITIAL_SPEED : Q := 300.
Definition SPEED_INCREASE_RATE : Q := 8.

Definition OBSTACLE_INTERVAL_MIN : Q := 700.
Definition OBSTACLE_INTERVAL_MAX : Q := 1800.

(** The object literal, as its entries in insertion order (the order of
    [Object.keys]). *)
Definition OBSTACLE_CONFIGS : list (string * ObstacleConfig) :=
  [ ("CACTUS_SMALL"%string, mkConfig 25 50);
    ("CACTUS_LARGE"%string, mkConfig 50 50) ].

(** ** Helpers shared by both versions of the component *)

(** [random(min, max)] with the draw [r] of [Math.random()]. *)
Definition random (r min max : Q) : Q := r * (max - min) + min.

(** An axis-aligned box, the shape of the two hitbox literals. *)
Record Hitbox := mkHitbox {
  hx : Q;
  hy : Q;
  hw : Q;
  hh : Q
}.

(** The condition of the [if] inside the collision loop. *)
Definition collides (a b : Hitbox) : bool :=
  Qlt_bool (hx a) (hx b + hw b) &&
  Qlt_bool (hx b) (hx a + hw a) &&
  Qlt_bool (hy a) (hy b + hh b) &&
  Qlt_bool (hy b) (hy a + hh a).

Definition obstacleHitbox (o : Obstacle) : Hitbox :=
  mkHitbox (x o) (GROUND_Y - height o) (width o) (height o).

(** [Object.keys(OBSTACLE_CONFIGS)]. *)
Definition obstacleTypes : list string := map fst OBSTACLE_CONFIGS.

(** [OBSTACLE_CONFIGS[type]]; [None] is JavaScript's [undefined]. *)
Fixpoint lookupConfig (cfgs : list (string * ObstacleConfig)) (t : string)
  : option ObstacleConfig :=
  match cfgs with
  | [] => None
  | (k, c) :: rest => if String.eqb k t then Some c else lookupConfig rest t
  end.

(** The obstacle literal [{...config, x: GAME_WIDTH, type}] for the draw [r]:
    the type at index [floor(r * length)].  For a draw outside [[0,1)], which
    [Math.random] never returns, the index is out of range; JavaScript then
    builds an obstacle without type or size, the model one with empty type
    and size zero. *)
Definition newObstacle (r : Q) : Obstacle :=
  let idx := Qfloor (r * inject_Z (Z.of_nat (List.length obstacleTypes))) in
  let type := if (idx <? 0)%Z then ""%string
              else nth (Z.to_nat idx) obstacleTypes ""%string in
  match lookupConfig OBSTACLE_CONFIGS type with
  | Some config => mkObstacle GAME_WIDTH (cfg_width config) (cfg_height config) type
  | None => mkObstacle GAME_WIDTH 0 0 type
  end.

(** The [map] callback of the scroll: [{...obstacle, x: obstacle.x - speed * deltaTime}]. *)
Definition moveObstacle (speed deltaTime : Q) (obstacle : Obstacle) : Obstacle :=
  mkObstacle (x obstacle - speed * deltaTime)
             (width obstacle) (height obstacle) (type obstacle).

(** The [filter] callback of the scroll: [obstacle.x > -obstacle.width]. *)
Definition onScreen (obstacle : Obstacle) : bool :=
  Qlt_bool (- width obstacle) (x obstacle).

(** [obstacles.map(...).filter(...)]. *)
Definition scrollObstacles (obstacles : list Obstacle) (speed deltaTime : Q)
  : list Obstacle :=
  filter onScreen (map (moveObstacle speed deltaTime) obstacles).

(** The spawn sub-step, the same statements in both versions: the countdown
    ref is decremented, and when it is [<= 0] one obstacle is appended
    ([push] in [App1], [[...prev, o]] in [App2]) and the countdown re-drawn.
    [rType] is the draw of the type, [rInterval] the draw of [random]; both
    are consumed only on a spawn.  The result is the obstacle list and the new
    value of [nextObstacleTimeRef.current]. *)
Definition spawn (newObstacles : list Obstacle)
    (nextObstacleTime speed deltaTime rType rInterval : Q)
  : list Obstacle * Q :=
  let countdown := nextObstacleTime - deltaTime * 1000 in
  if Qle_bool countdown 0 then
    (newObstacles ++ [newObstacle rType],
     random rInterval OBSTACLE_INTERVAL_MIN OBSTACLE_INTERVAL_MAX
       / (speed / INITIAL_SPEED))
  else (newObstacles, countdown).

(** The collision loop: [for (const obstacle of ...) { if (...) return }]
    finds out whether some obstacle's hitbox meets the player's. *)
Definition hitsAny (dinoHitbox : Hitbox) (obstacles : list Obstacle) : bool :=
  existsb (fun obstacle => collides dinoHitbox (obstacleHitbox obstacle)) obstacles.

(** ** The component state *)

(** The [useState] cells and the two refs read by the simulation. *)
Record Game := mkGame {
  gameState : GameState;
  dino : DinosaurState;
  obstacles : list Obstacle;
  score : Q;
  highScore : Q;
  speed : Q;
  lastTimeRef : Q;
  nextObstacleTimeRef : Q
}.

(** ** localStorage *)

(** The key-value store as the history of its [setItem] calls, latest first;
    [getItem] returns the latest value written under the key. *)
Definition Storage := list (string * string).

Definition setItem (key value : string) (ls : Storage) : Storage :=
  (key, value) :: ls.

Fixpoint getItem (key : string) (ls : Storage) : option string :=
  match ls with
  | [] => None
  | (k, v) :: rest => if String.eqb k key then Some v else getItem key rest
  end.

(** The exponent form of [toString] for the digits [d] of a number of more
    than 21 digits: the digits without their trailing zeros, a point after
    the first when more than one is left, and ["e+"] with the number of
    digits less one. *)
Definition exponentForm (d : Decimal.uint) : string :=
  let exponent :=
    NilZero.string_of_uint (Nat.to_uint (Decimal.nb_digits d - 1)) in
  match NilEmpty.string_of_uint (fst (Decimal.nztail d)) with
  | String c EmptyString => String c ("e+" ++ exponent)
  | String c rest => String c ("." ++ rest ++ "e+" ++ exponent)
  | EmptyString => EmptyString
  end.

(** [n.toString()] of an integral number: its decimal digits below 10^21 in
    absolute value, the exponent form from there on (["1e+21"] for 10^21).
    The number is exact, so all its digits are written. *)
Definition toString (n : Z) : string :=
  if (Z.abs n <? 10 ^ 21)%Z then NilZero.string_of_int (Z.to_int n)
  else
    match Z.to_int n with
    | Decimal.Pos d => exponentForm d
    | Decimal.Neg d => String "-" (exponentForm d)
    end.

(** The body of the [useEffect] keyed on [gameState], common to both
    versions: entering [running] clears [lastTimeRef]; entering [gameOver]
    records a new high score and stores it. *)
Definition gameStateEffect (g : Game) (ls : Storage) : Game * Storage :=
  match gameState g with
  | running =>
      (mkGame (gameState g) (dino g) (obstacles g) (score g) (highScore g)
              (speed g) 0 (nextObstacleTimeRef g), ls)
  | gameOver =>
      let finalScore := Qfloor (score g) in
      if Qlt_bool (highScore g) (inject_Z finalScore) then
        (mkGame (gameState g) (dino g) (obstacles g) (score g)
                (inject_Z finalScore) (speed g) (lastTimeRef g)
                (nextObstacleTimeRef g),
         setItem "dinoHighScore" (toString finalScore) ls)
      else (g, ls)
  | waiting => (g, ls)
  end.

(** [resetGame]; [r] is the draw of its call of [random]. *)
Definition resetGame (g : Game) (r : Q) : Game :=
  mkGame running
         (mkDino (GROUND_Y - cfg_height DINO_RUNNING_DIMENSIONS) 0 st_running)
         [] 0 (highScore g) INITIAL_SPEED 0
         (random r OBSTACLE_INTERVAL_MIN OBSTACLE_INTERVAL_MAX).

(** ** The version of the component with sounds and touch input (part_001) *)

Module App1.

Definition getDinoDimensions (status : DinosaurStatus) : ObstacleConfig :=
  match status with
  | st_ducking => DINO_DUCKING_DIMENSIONS
  | _ => DINO_RUNNING_DIMENSIONS
  end.

(** The ground level of a status: [GROUND_Y - dimensions.height]. *)
Definition groundPosition (status : DinosaurStatus) : Q :=
  GROUND_Y - cfg_height (getDinoDimensions status).

(** The kinematics sub-step of [gameLoop]: the final values of
    [newDinoY] and [newDinoVy]. *)
Definition kinematics (dino : DinosaurState) (deltaTime : Q) : Q * Q :=
  let currentDinoDimensions := getDinoDimensions (status dino) in
  let newDinoVy := vy dino + GRAVITY * deltaTime in
  let newDinoY := y dino + newDinoVy * deltaTime in
  let groundPosition := GROUND_Y - cfg_height currentDinoDimensions in
  if Qle_bool groundPosition newDinoY then (groundPosition, 0)
  else (newDinoY, newDinoVy).

(** [newObstacles] and the countdown after the scroll and spawn sub-steps. *)
Definition worldStep (g : Game) (deltaTime rType rInterval : Q)
  : list Obstacle * Q :=
  spawn (scrollObstacles (obstacles g) (speed g) deltaTime)
        (nextObstacleTimeRef g) (speed g) deltaTime rType rInterval.

(** The collision test of this version: the player's hitbox at its new
    height against the scrolled (and spawned) obstacles. *)
Definition detectsCollision (g : Game) (deltaTime rType rInterval : Q) : bool :=
  let currentDinoDimensions := getDinoDimensions (status (dino g)) in
  let dinoHitbox :=
    mkHitbox 50 (fst (kinematics (dino g) deltaTime))
             (cfg_width currentDinoDimensions)
             (cfg_height currentDinoDimensions) in
  hitsAny dinoHitbox (fst (worldStep g deltaTime rType rInterval)).

(** The body of [gameLoop] after [deltaTime] is known. *)
Definition tick (g : Game) (deltaTime rType rInterval : Q) : Game :=
  let '(newDinoY, newDinoVy) := kinematics (dino g) deltaTime in
  let '(newObstacles, nextObstacleTime) :=
    worldStep g deltaTime rType rInterval in
  if detectsCollision g deltaTime rType rInterval then
    (* setGameState('gameOver'); return; *)
    mkGame gameOver (dino g) (obstacles g) (score g) (highScore g) (speed g)
           (lastTimeRef g) nextObstacleTime
  else
    mkGame (gameState g)
           (mkDino newDinoY newDinoVy (status (dino g)))
           newObstacles
           (score g + speed g * deltaTime / 10)
           (highScore g)
           (speed g + SPEED_INCREASE_RATE * deltaTime)
           (lastTimeRef g) nextObstacleTime.

(** [gameLoop(time)]: the first frame after a reset only records the time. *)
Definition gameLoop (g : Game) (time rType rInterval : Q) : Game :=
  let started :=
    mkGame (gameState g) (dino g) (obstacles g) (score g) (highScore g)
           (speed g) time (nextObstacleTimeRef g) in
  if Qeq_bool (lastTimeRef g) 0 then started
  else tick started ((time - lastTimeRef g) / 1000) rType rInterval.

(** The updater passed to [setDino] by [jump]. *)
Definition jump (prevDino : DinosaurState) : DinosaurState :=
  let dimensions := getDinoDimensions (status prevDino) in
  let isOnGround := Qle_bool (GROUND_Y - cfg_height dimensions) (y prevDino) in
  if isOnGround then mkDino (y prevDino) (- JUMP_FORCE) (status prevDino)
  else prevDino.

End App1.

(** ** The version of the component with keyboard input only (part_002) *)

Module App2.

(** [getDinoDimensions()] reads [dino.status] of the snapshot. *)
Definition getDinoDimensions (dino : DinosaurState) : ObstacleConfig :=
  match status dino with
  | st_ducking => DINO_DUCKING_DIMENSIONS
  | _ => DINO_RUNNING_DIMENSIONS
  end.

(** The updater passed to [setDino] by [gameLoop]; [dino] is the snapshot
    whose status selects the dimensions. *)
Definition updateDino (dino prevDino : DinosaurState) (deltaTime : Q)
  : DinosaurState :=
  let dimensions := getDinoDimensions dino in
  let newVy := vy prevDino + GRAVITY * deltaTime in
  let newY := y prevDino + newVy * deltaTime in
  let groundPosition := GROUND_Y - cfg_height dimensions in
  if Qle_bool groundPosition newY
  then mkDino groundPosition 0 (status prevDino)
  else mkDino newY newVy (status prevDino).

(** The collision test of this version: the snapshot's [dino.y] and the
    snapshot's [obstacles], as they were before this tick's updates. *)
Definition detectsCollision (g : Game) : bool :=
  let dinoDimensions := getDinoDimensions (dino g) in
  let dinoHitbox :=
    mkHitbox 50 (y (dino g)) (cfg_width dinoDimensions)
             (cfg_height dinoDimensions) in
  hitsAny dinoHitbox (obstacles g).

(** The body of [gameLoop] after [deltaTime] is known: every update is
    issued before the collision test. *)
Definition tick (g : Game) (deltaTime rType rInterval : Q) : Game :=
  let newDino := updateDino (dino g) (dino g) deltaTime in
  let '(newObstacles, nextObstacleTime) :=
    spawn (scrollObstacles (obstacles g) (speed g) deltaTime)
          (nextObstacleTimeRef g) (speed g) deltaTime rType rInterval in
  mkGame (if detectsCollision g then gameOver else gameState g)
         newDino newObstacles
         (score g + speed g * deltaTime / 10)
         (highScore g)
         (speed g + SPEED_INCREASE_RATE * deltaTime)
         (lastTimeRef g) nextObstacleTime.

Definition gameLoop (g : Game) (time rType rInterval : Q) : Game :=
  let started :=
    mkGame (gameState g) (dino g) (obstacles g) (score g) (highScore g)
           (speed g) time (nextObstacleTimeRef g) in
  if Qeq_bool (lastTimeRef g) 0 then started
  else tick started ((time - lastTimeRef g) / 1000) rType rInterval.

(** The updater passed to [setDino] by [handleKeyDown] on Space/ArrowUp. *)
Definition jump (dino prevDino : DinosaurState) : DinosaurState :=
  let isOnGround :=
    Qle_bool (GROUND_Y - cfg_height (getDinoDimensions dino)) (y prevDino) in
  if isOnGround then mkDino (y prevDino) (- JUMP_FORCE) (status prevDino)
  else prevDino.

End App2.

(** ** Keyboard input *)

(** [e.code === 'Space' || e.code === 'ArrowUp']. *)
Definition isConfirm (code : string) : bool :=
  String.eqb code "Space" || String.eqb code "ArrowUp".

(** [handleKeyDown] of part_001; [r] is the draw used if the key resets the
    game. *)
Definition handleKeyDown1 (g : Game) (code : string) (r : Q) : Game :=
  match gameState g with
  | running =>
      if isConfirm code then
        mkGame (gameState g) (App1.jump (dino g)) (obstacles g) (score g)
               (highScore g) (speed g) (lastTimeRef g) (nextObstacleTimeRef g)
      else if String.eqb code "ArrowDown" then
        mkGame (gameState g) (mkDino (y (dino g)) (vy (dino g)) st_ducking)
               (obstacles g) (score g) (highScore g) (speed g) (lastTimeRef g)
               (nextObstacleTimeRef g)
      else g
  | _ => if isConfirm code then resetGame g r else g
  end.

(** [handleKeyDown] of part_002. *)
Definition handleKeyDown2 (g : Game) (code : string) (r : Q) : Game :=
  match gameState g with
  | running =>
      if isConfirm code then
        mkGame (gameState g) (App2.jump (dino g) (dino g)) (obstacles g)
               (score g) (highScore g) (speed g) (lastTimeRef g)
               (nextObstacleTimeRef g)
      else if String.eqb code "ArrowDown" then
        mkGame (gameState g) (mkDino (y (dino g)) (vy (dino g)) st_ducking)
               (obstacles g) (score g) (highScore g) (speed g) (lastTimeRef g)
               (nextObstacleTimeRef g)
      else g
  | _ => if isConfirm code then resetGame g r else g
  end.

(** [handleKeyUp], the same in both versions. *)
Definition handleKeyUp (g : Game) (code : string) : Game :=
  match gameState g with
  | running =>
      if String.eqb code "ArrowDown" then
        mkGame (gameState g) (mkDino (y (dino g)) (vy (dino g)) st_running)
               (obstacles g) (score g) (highScore g) (speed g) (lastTimeRef g)
               (nextObstacleTimeRef g)
      else g
  | _ => g
  end.

(** ** Runs of several ticks *)

(** The player after one tick of part_001 that commits its updates:
    [setDino(prev => ({...prev, y: newDinoY, vy: newDinoVy}))]. *)
Definition stepDino (d : DinosaurState) (deltaTime : Q) : DinosaurState :=
  mkDino (fst (App1.kinematics d deltaTime)) (snd (App1.kinematics d deltaTime))
         (status d).

(** The player after [n] committed ticks of equal length and no input. *)
Fixpoint fall (n : nat) (deltaTime : Q) (d : DinosaurState) : DinosaurState :=
  match n with
  | O => d
  | S k => stepDino (fall k deltaTime d) deltaTime
  end.

(** The same run with the updater of part_002. *)
Fixpoint fall2 (n : nat) (deltaTime : Q) (d : DinosaurState) : DinosaurState :=
  match n with
  | O => d
  | S k => App2.updateDino (fall2 k deltaTime d) (fall2 k deltaTime d) deltaTime
  end.

(** The player after committed ticks of the given lengths, earliest first,
    and no input. *)
Definition fallFrames (dts : list Q) (d : DinosaurState) : DinosaurState :=
  fold_left stepDino dts d.

(** The time the ticks cover. *)
Definition totalTime (dts : list Q) : Q := fold_right Qplus 0 dts.

(** The inputs of one tick: its [deltaTime] and its two random draws. *)
Record Frame := mkFrame {
  frameDt : Q;
  frameType : Q;
  frameInterval : Q
}.

(** Consecutive ticks of part_001, earliest frame first. *)
Fixpoint runTicks (g : Game) (frames : list Frame) : Game :=
  match frames with
  | [] => g
  | f :: rest =>
      runTicks (App1.tick g (frameDt f) (frameType f) (frameInterval f)) rest
  end.

(** [Subseq l1 l2]: [l1] is [l2] with some elements dropped, the others in
    their order. *)
Inductive Subseq {A : Type} : list A -> list A -> Prop :=
| Subseq_nil : Subseq [] []
| Subseq_skip : forall a l1 l2, Subseq l1 l2 -> Subseq l1 (a :: l2)
| Subseq_keep : forall a l1 l2, Subseq l1 l2 -> Subseq (a :: l1) (a :: l2).

(** ** Start-up: reading the stored high score *)

(** Strings are sequences of bytes: a character beyond ASCII stands as its
    UTF-8 encoding.  [whiteSpaceLength s] is the number of bytes of the
    white-space character (white space or line terminator of JavaScript) that
    [s] begins with, 0 when it begins with none: TAB, LF, VT, FF, CR, SP;
    U+00A0; U+1680; U+2000 to U+200A, U+2028, U+2029, U+202F; U+205F; U+3000;
    U+FEFF.  The single byte 160, NO-BREAK SPACE in Latin-1, is taken for
    that character as well. *)
Definition whiteSpaceLength (s : string) : nat :=
  match s with
  | EmptyString => 0%nat
  | String c1 rest1 =>
      let n1 := nat_of_ascii c1 in
      let second :=
        match rest1 with
        | String c2 _ => nat_of_ascii c2
        | EmptyString => 0%nat
        end in
      let third :=
        match rest1 with
        | String _ (String c3 _) => nat_of_ascii c3
        | _ => 0%nat
        end in
      (if ((9 <=? n1) && (n1 <=? 13)) || (n1 =? 32) || (n1 =? 160) then 1
       else if n1 =? 194 then (if second =? 160 then 2 else 0)
       else if n1 =? 225 then
         (if (second =? 154) && (third =? 128) then 3 else 0)
       else if n1 =? 226 then
         (if (second =? 128)
             && (((128 <=? third) && (third <=? 138)) || (third =? 168)
                 || (third =? 169) || (third =? 175)) then 3
          else if (second =? 129) && (third =? 159) then 3 else 0)
       else if n1 =? 227 then
         (if (second =? 128) && (third =? 128) then 3 else 0)
       else if n1 =? 239 then
         (if (second =? 187) && (third =? 191) then 3 else 0)
       else 0)%nat
  end.

(** [s] without its first [n] bytes. *)
Fixpoint dropBytes (n : nat) (s : string) : string :=
  match n, s with
  | S k, String _ rest => dropBytes k rest
  | _, _ => s
  end.

(** The value of a decimal digit character. *)
Definition digitValue (c : ascii) : option Z :=
  let n := nat_of_ascii c in
  if ((48 <=? n) && (n <=? 57))%nat then Some (Z.of_nat n - 48)%Z else None.

(** [s] without its leading white space; [fuel] bounds the number of
    characters skipped. *)
Fixpoint skipWhiteSpaceFuel (fuel : nat) (s : string) : string :=
  match fuel with
  | O => s
  | S k =>
      match whiteSpaceLength s with
      | O => s
      | n => skipWhiteSpaceFuel k (dropBytes n s)
      end
  end.

Definition skipWhiteSpace (s : string) : string :=
  skipWhiteSpaceFuel (String.length s) s.

(** The value of the longest prefix of digits, read left to right; [acc] is
    the value read so far, [None] while no digit has been read. *)
Fixpoint parseDigits (s : string) (acc : option Z) : option Z :=
  match s with
  | String c rest =>
      match digitValue c with
      | Some d =>
          parseDigits rest
            (Some (10 * match acc with Some a => a | None => 0 end + d)%Z)
      | None => acc
      end
  | EmptyString => acc
  end.

(** [parseInt(s, 10)]: leading white space is skipped, one sign is accepted,
    the digits up to the first other character are read; [None] is NaN (no
    digit was found).  Integers are exact. *)
Definition parseInt (s : string) : option Z :=
  match skipWhiteSpace s with
  | String c rest =>
      if Ascii.eqb c "-" then option_map Z.opp (parseDigits rest None)
      else if Ascii.eqb c "+" then parseDigits rest None
      else parseDigits (String c rest) None
  | EmptyString => None
  end.

(** The start-up effect of both versions:
    [if (savedHighScore) setHighScore(parseInt(savedHighScore, 10) || 0)].
    A missing entry ([null]) and the empty string are falsy; NaN and 0 are
    replaced by 0. *)
Definition loadHighScore (g : Game) (ls : Storage) : Game :=
  match getItem "dinoHighScore" ls with
  | None => g
  | Some savedHighScore =>
      if String.eqb savedHighScore "" then g
      else
        let parsed :=
          match parseInt savedHighScore with
          | Some n => if (n =? 0)%Z then 0 else inject_Z n
          | None => 0
          end in
        mkGame (gameState g) (dino g) (obstacles g) (score g) parsed (speed g)
               (lastTimeRef g) (nextObstacleTimeRef g)
  end.

(** ** part_001: touch input, the score sound, the drawn player *)

(** [handleTouchStart] of part_001; [r] is the draw used if the touch resets
    the game. *)
Definition handleTouchStart (g : Game) (r : Q) : Game :=
  match gameState g with
  | running =>
      mkGame (gameState g) (App1.jump (dino g)) (obstacles g) (score g)
             (highScore g) (speed g) (lastTimeRef g) (nextObstacleTimeRef g)
  | _ => resetGame g r
  end.

(** The effect of part_001 keyed on [score]: from the score and the value of
    [lastScoreMilestone.current], whether [playSound('score')] is called and
    the new value of the ref.  The ref only ever holds 0 or a floor, so it is
    an integer. *)
Definition scoreMilestoneEffect (score : Q) (lastScoreMilestone : Z) : bool * Z :=
  let currentMilestone := Qfloor (score / 100) in
  if ((0 <? currentMilestone) && (lastScoreMilestone <? currentMilestone))%Z
  then (true, currentMilestone)
  else (false, lastScoreMilestone).

(** [dinoYPos] of the render, the same in both versions. *)
Definition dinoYPos (d : DinosaurState) : Q :=
  let dinoDimensions := App1.getDinoDimensions (status d) in
  let groundPosition := GROUND_Y - cfg_height dinoDimensions in
  match status d with
  | st_ducking => if Qle_bool groundPosition (y d) then groundPosition else y d
  | _ => y d
  end.

(** The [bottom] style of the player's box: its distance from the lower edge
    of the game area. *)
Definition dinoBottom (d : DinosaurState) : Q :=
  GAME_HEIGHT - dinoYPos d - cfg_height (App1.getDinoDimensions (status d)).

(** ** Sessions of part_001 *)

(** What can happen to the component: a frame (the body of [gameLoop] for the
    frame's [deltaTime] and draws), a key going down or up, a touch, and a run
    of the effect keyed on [gameState]. *)
Inductive Input :=
| InFrame (f : Frame)
| InKeyDown (code : string) (r : Q)
| InKeyUp (code : string)
| InTouch (r : Q)
| InEffect.

Definition applyInput (w : Game * Storage) (i : Input) : Game * Storage :=
  match i with
  | InFrame f =>
      (App1.tick (fst w) (frameDt f) (frameType f) (frameInterval f), snd w)
  | InKeyDown code r => (handleKeyDown1 (fst w) code r, snd w)
  | InKeyUp code => (handleKeyUp (fst w) code, snd w)
  | InTouch r => (handleTouchStart (fst w) r, snd w)
  | InEffect => gameStateEffect (fst w) (snd w)
  end.

(** Any sequence of them, in any order, earliest first. *)
Definition play (w : Game * Storage) (inputs : list Input) : Game * Storage :=
  fold_left applyInput inputs w.

(** Frame times do not run backwards and every draw is a result of
    [Math.random()]. *)
Definition validInput (i : Input) : Prop :=
  match i with
  | InFrame f =>
      0 <= frameDt f /\ (0 <= frameType f /\ frameType f < 1) /\
      (0 <= frameInterval f /\ frameInterval f < 1)
  | InKeyDown _ r => 0 <= r /\ r < 1
  | InTouch r => 0 <= r /\ r < 1
  | InKeyUp _ => True
  | InEffect => True
  end.

(** An obstacle as the spawn makes them and the scroll keeps them: of a
    catalog type with that type's size, not yet wholly past the left edge and
    not right of the spawn point. *)
Definition wellPlaced (o : Obstacle) : Prop :=
  In (type o, mkConfig (width o) (height o)) OBSTACLE_CONFIGS /\
  - width o < x o /\ x o <= GAME_WIDTH.

(** The obstacles stand in the list from left to right. *)
Definition sortedByX (obs : list Obstacle) : Prop :=
  StronglySorted (fun a b => x a <= x b) obs.

(** What holds of the game throughout a session. *)
Definition sessionInvariant (g : Game) : Prop :=
  INITIAL_SPEED <= speed g /\ 0 <= score g /\
  Forall wellPlaced (obstacles g) /\ sortedByX (obstacles g) /\
  status (dino g) <> st_jumping /\
  y (dino g) <= GROUND_Y - cfg_height DINO_DUCKING_DIMENSIONS /\
  0 <= nextObstacleTimeRef g /\ nextObstacleTimeRef g < OBSTACLE_INTERVAL_MAX.

(** ** Sample states *)

(** A running game with the player on the ground and one small cactus whose
    left edge is one pixel right of the player's right edge: nothing overlaps
    yet, and the next frame of 1/60 s scrolls the cactus into the player. *)
Definition aboutToCrash : Game :=
  mkGame running
         (mkDino (GROUND_Y - cfg_height DINO_RUNNING_DIMENSIONS) 0 st_running)
         [mkObstacle 95 25 50 "CACTUS_SMALL"]
         120 0 INITIAL_SPEED 1000 500.

(** The component as first rendered: the initial values of its state cells
    and refs. *)
Definition initialGame : Game :=
  mkGame waiting
         (mkDino (GROUND_Y - cfg_height DINO_RUNNING_DIMENSIONS) 0 st_running)
         [] 0 0 INITIAL_SPEED 0 0.

(** A session of part_001: Space starts the game, ArrowDown is held for
    twelve frames of 1/60 s, so that the player sinks to the ducking ground
    level, and is then released. *)
Definition afterDuckRelease : Game :=
  let started := fst (gameStateEffect (handleKeyDown1 initialGame "Space" (1 # 2)) []) in
  let ducking := handleKeyDown1 started "ArrowDown" 0 in
  let ducked := runTicks ducking (repeat (mkFrame (1 # 60) 0 0) 12) in
  handleKeyUp ducked "ArrowDown".

(** A session of part_001: Space starts the game and Space again jumps. *)
Definition midAirJump : Game :=
  handleKeyDown1
    (fst (gameStateEffect (handleKeyDown1 initialGame "Space" (1 # 2)) []))
    "Space" 0.

(** The jump after [n] frames of 1/30 s. *)
Definition midAirFlight (n : nat) : Game :=
  runTicks midAirJump (repeat (mkFrame (1 # 30) 0 0) n).

(** After 20 frames, still in flight, ArrowDown is held for one frame. *)
Definition midAirDuck : Game :=
  runTicks (handleKeyDown1 (midAirFlight 20) "ArrowDown" 0)
           [mkFrame (1 # 30) 0 0].

(** And released. *)
Definition afterMidAirDuck : Game := handleKeyUp midAirDuck "ArrowDown".

(** The state in which the effect on [gameOver] runs after [aboutToCrash]
    has crashed. *)
Definition crashed : Game :=
  App1.tick aboutToCrash (1 # 60) 0 0.

(** A short session: start, a frame, a jump, a frame, a duck and a touch. *)
Definition sampleSession : list Input :=
  [ InKeyDown "Space" (1 # 2); InEffect;
    InFrame (mkFrame (1 # 60) (3 # 4) (1 # 2));
    InKeyDown "Space" 0;
    InFrame (mkFrame (1 # 60) (1 # 4) (1 # 2));
    InKeyDown "ArrowDown" 0; InKeyUp "ArrowDown"; InTouch 0 ].

(** A session that spawns and ends in a crash: start, seven frames of 1/2 s
    (obstacles are spawned in the third and the sixth), a frame of 1/4 s that
    brings the first obstacle under the player, and the effect on
    [gameOver]. *)
Definition crashSession : list Input :=
  [InKeyDown "Space" (1 # 2); InEffect]
  ++ repeat (InFrame (mkFrame (1 # 2) (3 # 4) (1 # 2))) 7
  ++ [InFrame (mkFrame (1 # 4) (3 # 4) (1 # 2)); InEffect].

(** Before each input of the session the score is below 10^21 in absolute
    value, the point from which [toString] leaves the decimal form. *)
Fixpoint scoreStaysDecimal (w : Game * Storage) (inputs : list Input) : Prop :=
  match inputs with
  | [] => True
  | i :: rest =>
      (Z.abs (Qfloor (score (fst w))) < 10 ^ 21)%Z /\
      scoreStaysDecimal (applyInput w i) rest
  end.

(** * Properties *)

(** ** Comparisons *)

Lemma Qlt_bool_iff (a b : Q) : Qlt_bool a b = true <-> a < b.
Proof.
  unfold Qlt_bool. rewrite negb_true_iff.
  split; intro H.
  - apply Qnot_le_lt. intro Hle. apply Qle_bool_iff in Hle. congruence.
  - destruct (Qle_bool b a) eqn:E; [|reflexivity].
    apply Qle_bool_iff in E. exfalso. apply (Qlt_not_le _ _ H E).
Qed.

Lemma Qlt_bool_false_iff (a b : Q) : Qlt_bool a b = false <-> b <= a.
Proof.
  unfold Qlt_bool. rewrite negb_false_iff. apply Qle_bool_iff.
Qed.

Lemma Qle_bool_false_iff (a b : Q) : Qle_bool a b = false <-> b < a.
Proof.
  rewrite <- Qlt_bool_iff. unfold Qlt_bool.
  destruct (Qle_bool a b); simpl; split; congruence.
Qed.


(** ** Kinematics *)

Lemma groundPosition_versions (d : DinosaurState) :
  GROUND_Y - cfg_height (App2.getDinoDimensions d) = App1.groundPosition (status d).
Proof. unfold App1.groundPosition. destruct d as [? ? []]; reflexivity. Qed.

Lemma updateDino_stepDino (d : DinosaurState) (dt : Q) :
  App2.updateDino d d dt = stepDino d dt.
Proof.
  unfold App2.updateDino, stepDino, App1.kinematics.
  replace (App2.getDinoDimensions d) with (App1.getDinoDimensions (status d))
    by (destruct d as [? ? []]; reflexivity).
  destruct (Qle_bool _ _); reflexivity.
Qed.

Lemma kinematics_cases (d : DinosaurState) (dt : Q) :
  let vy1 := vy d + GRAVITY * dt in
  let y1 := y d + vy1 * dt in
  let ground := App1.groundPosition (status d) in
  (ground <= y1 /\ App1.kinematics d dt = (ground, 0)) \/
  (y1 < ground /\ App1.kinematics d dt = (y1, vy1)).
Proof.
  cbv zeta. unfold App1.kinematics, App1.groundPosition.
  destruct (Qle_bool _ _) eqn:E.
  - left. split; [apply Qle_bool_iff; exact E | reflexivity].
  - right. split; [apply Qle_bool_false_iff; exact E | reflexivity].
Qed.

(** C1. For every player state, status and [dt >= 0], the kinematics
    sub-step of both versions computes [vy' = vy + GRAVITY*dt] and
    [y' = y + vy'*dt]; when [y' >= groundY(status)] the result is clamped to
    [(groundY(status), 0)], otherwise it is [(y', vy')]; in every case the
    resulting height is [<= groundY(status)]. *)
Theorem kinematics_euler_clamp (d : DinosaurState) (dt : Q) (Hdt : 0 <= dt) :
  let vy1 := vy d + GRAVITY * dt in
  let y1 := y d + vy1 * dt in
  let ground := App1.groundPosition (status d) in
  (ground <= y1 ->
     App1.kinematics d dt = (ground, 0) /\
     App2.updateDino d d dt = mkDino ground 0 (status d)) /\
  (y1 < ground ->
     App1.kinematics d dt = (y1, vy1) /\
     App2.updateDino d d dt = mkDino y1 vy1 (status d)) /\
  fst (App1.kinematics d dt) <= ground /\
  y (App2.updateDino d d dt) <= ground.
Proof.
  cbv zeta. rewrite updateDino_stepDino. unfold stepDino.
  destruct (kinematics_cases d dt) as [[Hy E] | [Hy E]]; cbv zeta in Hy, E;
    rewrite E; simpl; repeat split; try reflexivity; intros; try lra.
Qed.

Lemma kinematics_euler_clamp_witness :
  0 <= 1 # 10 /\
  fst (App1.kinematics (mkDino 100 0 st_running) (1 # 10))
    <= App1.groundPosition st_running.
Proof.
  assert (H : 0 <= 1 # 10) by (vm_compute; discriminate).
  split; [exact H|].
  exact (proj1 (proj2 (proj2
           (kinematics_euler_clamp (mkDino 100 0 st_running) (1 # 10) H)))).
Defined.

Example kinematics_airborne :
  App1.kinematics (mkDino 100 0 st_running) (1 # 10)
  = (100 + (0 + GRAVITY * (1 # 10)) * (1 # 10), 0 + GRAVITY * (1 # 10)).
Proof. reflexivity. Qed.

Example kinematics_landing :
  App1.kinematics (mkDino 180 300 st_running) (1 # 60) = (GROUND_Y - 47, 0).
Proof. reflexivity. Qed.

(** ** Collision *)

Lemma collides_iff (a b : Hitbox) :
  collides a b = true <->
  hx a < hx b + hw b /\ hx a + hw a > hx b /\
  hy a < hy b + hh b /\ hy a + hh a > hy b.
Proof.
  unfold collides. rewrite !andb_true_iff, !Qlt_bool_iff. tauto.
Qed.

Lemma collides_sym (a b : Hitbox) : collides a b = collides b a.
Proof.
  unfold collides.
  destruct (Qlt_bool (hx a) (hx b + hw b)), (Qlt_bool (hx b) (hx a + hw a)),
           (Qlt_bool (hy a) (hy b + hh b)), (Qlt_bool (hy b) (hy a + hh a));
    reflexivity.
Qed.

(** C2. The collision predicate of two boxes is exactly
    [a.x < b.x+b.w && a.x+a.w > b.x && a.y < b.y+b.h && a.y+a.h > b.y]; it is
    symmetric; boxes that touch ([a.x+a.w == b.x]) do not collide; the player
    box [{50,180,44,47}] collides with the obstacle box [{60,180,25,50}] and
    not with the same box at [x = 95]. *)
Theorem collides_exact_symmetric_open :
  (forall a b : Hitbox,
     (collides a b = true <->
      hx a < hx b + hw b /\ hx a + hw a > hx b /\
      hy a < hy b + hh b /\ hy a + hh a > hy b) /\
     collides a b = collides b a /\
     (hx a + hw a == hx b -> collides a b = false)) /\
  collides (mkHitbox 50 180 44 47) (mkHitbox 60 180 25 50) = true /\
  collides (mkHitbox 50 180 44 47) (mkHitbox 95 180 25 50) = false.
Proof.
  split; [|split; reflexivity].
  intros a b. split; [apply collides_iff|]. split; [apply collides_sym|].
  intro Htouch. destruct (collides a b) eqn:E; [|reflexivity].
  apply collides_iff in E. destruct E as (_ & H & _). lra.
Qed.

Lemma collides_exact_symmetric_open_witness :
  0 + 10 == 10 /\ collides (mkHitbox 0 0 10 10) (mkHitbox 10 0 5 5) = false.
Proof.
  assert (H : hx (mkHitbox 0 0 10 10) + hw (mkHitbox 0 0 10 10)
              == hx (mkHitbox 10 0 5 5)) by reflexivity.
  split; [reflexivity|].
  exact (proj2 (proj2 (proj1 collides_exact_symmetric_open
                         (mkHitbox 0 0 10 10) (mkHitbox 10 0 5 5))) H).
Defined.

(** ** World scroll *)

Lemma filter_Subseq {A : Type} (p : A -> bool) (l : list A) :
  Subseq (filter p l) l.
Proof.
  induction l as [|a l IH]; simpl.
  - constructor.
  - destruct (p a); constructor; exact IH.
Qed.

Lemma onScreen_iff (o : Obstacle) : onScreen o = true <-> - width o < x o.
Proof. unfold onScreen. apply Qlt_bool_iff. Qed.

Lemma onScreen_false_iff (o : Obstacle) : onScreen o = false <-> x o + width o <= 0.
Proof.
  unfold onScreen. rewrite Qlt_bool_false_iff. split; intro; lra.
Qed.

Lemma newObstacle_shape (r : Q) :
  x (newObstacle r) = GAME_WIDTH /\
  (width (newObstacle r) = 25 \/ width (newObstacle r) = 50 \/
   width (newObstacle r) = 0).
Proof.
  unfold newObstacle.
  destruct (Qfloor _ <? 0)%Z; [simpl; auto|].
  destruct (Z.to_nat _) as [|[|[|n]]]; simpl; auto.
Qed.

Lemma newObstacle_onScreen (r : Q) : onScreen (newObstacle r) = true.
Proof.
  apply onScreen_iff.
  destruct (newObstacle_shape r) as [Hx [Hw | [Hw | Hw]]];
    rewrite Hx, Hw; reflexivity.
Qed.

Lemma scrollObstacles_In (obs : list Obstacle) (speed dt : Q) (o' : Obstacle) :
  In o' (scrollObstacles obs speed dt) <->
  (exists o, In o obs /\ o' = moveObstacle speed dt o) /\ - width o' < x o'.
Proof.
  unfold scrollObstacles. rewrite filter_In, in_map_iff, onScreen_iff.
  split; intros [[o [H1 H2]] Hw]; (split; [exists o; split|exact Hw]);
    solve [assumption | symmetry; assumption].
Qed.

Lemma spawn_fst (l : list Obstacle) (next speed dt rT rI : Q) :
  fst (spawn l next speed dt rT rI) = l \/
  fst (spawn l next speed dt rT rI) = l ++ [newObstacle rT].
Proof. unfold spawn. destruct (Qle_bool _ _); simpl; auto. Qed.

(** The boundary case of the despawn test: an obstacle whose new position is
    exactly [x = -width] is dropped although [x + width < 0] is false, both
    for its new and for its old position. *)
Lemma scroll_drops_obstacle_at_boundary :
  let o := mkObstacle (-20) 25 50 "CACTUS_SMALL" in
  let o' := moveObstacle 300 (1 # 60) o in
  scrollObstacles [o] 300 (1 # 60) = [] /\
  x o' + width o' == 0 /\
  ~ (x o + width o < 0) /\
  ~ (~ In o' (scrollObstacles [o] 300 (1 # 60)) <-> x o' + width o' < 0).
Proof.
  cbv zeta. split; [reflexivity|]. split; [reflexivity|]. split.
  - intro H. vm_compute in H. discriminate.
  - intros [H _].
    assert (Hlt : x (moveObstacle 300 (1 # 60) (mkObstacle (-20) 25 50 "CACTUS_SMALL"))
                  + width (moveObstacle 300 (1 # 60) (mkObstacle (-20) 25 50 "CACTUS_SMALL"))
                  < 0).
    { apply H. intros []. }
    vm_compute in Hlt. discriminate.
Qed.

(** C3 (amended). The world-scroll sub-step moves every obstacle to
    [x - speed*dt] and leaves its size and type alone; the survivors are a
    subsequence of the moved obstacles, in their order; a moved obstacle is
    dropped exactly when [x + width <= 0] (kept exactly when [x > -width]); so
    no obstacle with [x <= -width] is in the result of the scroll, nor in the
    obstacle list a tick hands on after the spawn. *)
Theorem scroll_moves_keeps_order_drops_offscreen
    (obs : list Obstacle) (speed dt : Q) :
  (forall o, x (moveObstacle speed dt o) == x o - speed * dt /\
             width (moveObstacle speed dt o) = width o /\
             height (moveObstacle speed dt o) = height o /\
             type (moveObstacle speed dt o) = type o) /\
  Subseq (scrollObstacles obs speed dt) (map (moveObstacle speed dt) obs) /\
  (forall o, In o obs ->
     (In (moveObstacle speed dt o) (scrollObstacles obs speed dt) <->
      ~ (x (moveObstacle speed dt o) + width (moveObstacle speed dt o) <= 0))) /\
  (forall o', In o' (scrollObstacles obs speed dt) -> ~ (x o' <= - width o')) /\
  (forall next rT rI o',
     In o' (fst (spawn (scrollObstacles obs speed dt) next speed dt rT rI)) ->
     ~ (x o' <= - width o')).
Proof.
  split; [intro o; simpl; repeat split; reflexivity|].
  split; [apply filter_Subseq|].
  split; [|split].
  - intros o Ho. rewrite scrollObstacles_In. split.
    + intros [_ H]. lra.
    + intro H. split; [exists o; auto|]. lra.
  - intros o' Ho'. apply scrollObstacles_In in Ho'. destruct Ho' as [_ H]. lra.
  - intros next rT rI o' Ho'.
    destruct (spawn_fst (scrollObstacles obs speed dt) next speed dt rT rI) as [E|E];
      rewrite E in Ho'.
    + apply scrollObstacles_In in Ho'. destruct Ho' as [_ H]. lra.
    + apply in_app_or in Ho'. destruct Ho' as [Ho'|[<-|[]]].
      * apply scrollObstacles_In in Ho'. destruct Ho' as [_ H]. lra.
      * pose proof (proj1 (onScreen_iff _) (newObstacle_onScreen rT)). lra.
Qed.

Lemma scroll_moves_keeps_order_drops_offscreen_witness :
  let o := mkObstacle 100 25 50 "CACTUS_SMALL" in
  In o [o] /\ In (moveObstacle 300 (1 # 60) o) (scrollObstacles [o] 300 (1 # 60)).
Proof.
  cbv zeta.
  assert (H : In (mkObstacle 100 25 50 "CACTUS_SMALL")
                 [mkObstacle 100 25 50 "CACTUS_SMALL"]) by (left; reflexivity).
  split; [exact H|].
  apply (proj1 (proj2 (proj2
           (scroll_moves_keeps_order_drops_offscreen
              [mkObstacle 100 25 50 "CACTUS_SMALL"] 300 (1 # 60)))) _ H).
  intro Hle. vm_compute in Hle. apply Hle. reflexivity.
Defined.

(** ** Score and speed *)

Lemma tick_cases (g : Game) (dt rT rI : Q) :
  (App1.detectsCollision g dt rT rI = true /\
   App1.tick g dt rT rI =
     mkGame gameOver (dino g) (obstacles g) (score g) (highScore g) (speed g)
            (lastTimeRef g) (snd (App1.worldStep g dt rT rI))) \/
  (App1.detectsCollision g dt rT rI = false /\
   App1.tick g dt rT rI =
     mkGame (gameState g) (stepDino (dino g) dt)
            (fst (App1.worldStep g dt rT rI))
            (score g + speed g * dt / 10) (highScore g)
            (speed g + SPEED_INCREASE_RATE * dt)
            (lastTimeRef g) (snd (App1.worldStep g dt rT rI))).
Proof.
  unfold App1.tick, stepDino.
  destruct (App1.kinematics (dino g) dt) as [newY newVy].
  destruct (App1.worldStep g dt rT rI) as [newObstacles next].
  destruct (App1.detectsCollision g dt rT rI); [left|right]; split; reflexivity.
Qed.

Lemma runTicks_app (frames1 frames2 : list Frame) (g : Game) :
  runTicks g (frames1 ++ frames2) = runTicks (runTicks g frames1) frames2.
Proof.
  revert g. induction frames1 as [|f frames1 IH]; intro g; simpl.
  - reflexivity.
  - apply IH.
Qed.

Lemma tick_score_speed_le (g : Game) (dt rT rI : Q) :
  0 <= speed g -> 0 <= dt ->
  score g <= score (App1.tick g dt rT rI) /\
  speed g <= speed (App1.tick g dt rT rI).
Proof.
  intros Hs Hdt.
  destruct (tick_cases g dt rT rI) as [[_ E] | [_ E]]; rewrite E; simpl.
  - split; apply Qle_refl.
  - pose proof (Qmult_le_0_compat _ _ Hs Hdt) as Hp.
    unfold SPEED_INCREASE_RATE. split; [|lra].
    assert (Hd : speed g * dt / 10 == (speed g * dt) * (1 # 10)) by field.
    rewrite Hd. lra.
Qed.

Lemma runTicks_score_speed_le (frames : list Frame) (g : Game) :
  0 <= speed g -> Forall (fun f => 0 <= frameDt f) frames ->
  score g <= score (runTicks g frames) /\
  speed g <= speed (runTicks g frames).
Proof.
  revert g. induction frames as [|f frames IH]; intros g Hs Hall; simpl.
  - split; apply Qle_refl.
  - inversion Hall as [|? ? Hf Hrest]; subst.
    destruct (tick_score_speed_le g (frameDt f) (frameType f) (frameInterval f) Hs Hf)
      as [H1 H2].
    destruct (IH (App1.tick g (frameDt f) (frameType f) (frameInterval f))) as [H3 H4];
      [lra | exact Hrest |].
    split; lra.
Qed.

(** On the frame that detects the collision the score stays what it was: it
    is not [score + speed*dt/10]. *)
Lemma crash_tick_keeps_score :
  App1.detectsCollision aboutToCrash (1 # 60) 0 0 = true /\
  score (App1.tick aboutToCrash (1 # 60) 0 0) == 120 /\
  ~ (score (App1.tick aboutToCrash (1 # 60) 0 0)
     == score aboutToCrash + speed aboutToCrash * (1 # 60) / 10) /\
  ~ (speed (App1.tick aboutToCrash (1 # 60) 0 0)
     == speed aboutToCrash + SPEED_INCREASE_RATE * (1 # 60)).
Proof.
  split; [reflexivity|]. split; [reflexivity|].
  split; intro H; vm_compute in H; discriminate.
Qed.

(** C4 (amended). A tick of part_001 that detects no collision updates score
    to [score + speed*dt/10] and speed to [speed + SPEED_INCREASE_RATE*dt];
    the tick that detects one leaves both as they were.  So along every
    sequence of ticks with [dt >= 0] after a reset, score and speed never
    decrease, and every reset sets them to [(0, INITIAL_SPEED)]. *)
Theorem score_speed_progress_and_reset :
  (forall g dt rT rI,
     (App1.detectsCollision g dt rT rI = false ->
      score (App1.tick g dt rT rI) = score g + speed g * dt / 10 /\
      speed (App1.tick g dt rT rI) = speed g + SPEED_INCREASE_RATE * dt) /\
     (App1.detectsCollision g dt rT rI = true ->
      score (App1.tick g dt rT rI) = score g /\
      speed (App1.tick g dt rT rI) = speed g)) /\
  (forall g r frames1 frames2,
     Forall (fun f => 0 <= frameDt f) (frames1 ++ frames2) ->
     score (runTicks (resetGame g r) frames1)
       <= score (runTicks (resetGame g r) (frames1 ++ frames2)) /\
     speed (runTicks (resetGame g r) frames1)
       <= speed (runTicks (resetGame g r) (frames1 ++ frames2))) /\
  (forall g r,
     score (resetGame g r) = 0 /\ speed (resetGame g r) = INITIAL_SPEED).
Proof.
  split; [|split].
  - intros g dt rT rI.
    destruct (tick_cases g dt rT rI) as [[D E] | [D E]]; rewrite D, E; simpl;
      split; intro H; try discriminate H; split; reflexivity.
  - intros g r frames1 frames2 Hall.
    apply Forall_app in Hall. destruct Hall as [H1 H2].
    rewrite runTicks_app.
    apply runTicks_score_speed_le; [|exact H2].
    destruct (runTicks_score_speed_le frames1 (resetGame g r)) as [_ Hs];
      [simpl; unfold INITIAL_SPEED; lra | exact H1 |].
    simpl in Hs. unfold INITIAL_SPEED in Hs. lra.
  - intros g r. split; reflexivity.
Qed.

Lemma score_speed_progress_and_reset_witness :
  let frames := [mkFrame (1 # 60) 0 0; mkFrame (1 # 30) 0 0] in
  Forall (fun f => 0 <= frameDt f) (frames ++ frames) /\
  speed (runTicks (resetGame aboutToCrash 0) frames)
    <= speed (runTicks (resetGame aboutToCrash 0) (frames ++ frames)).
Proof.
  cbv zeta.
  assert (H : Forall (fun f => 0 <= frameDt f)
                ([mkFrame (1 # 60) 0 0; mkFrame (1 # 30) 0 0]
                 ++ [mkFrame (1 # 60) 0 0; mkFrame (1 # 30) 0 0])).
  { simpl. repeat constructor; simpl; vm_compute; discriminate. }
  split; [exact H|].
  exact (proj2 (proj1 (proj2 score_speed_progress_and_reset)
                  aboutToCrash 0 _ _ H)).
Defined.

(** ** Spawning *)

Lemma Qfloor_unique (q : Q) (z : Z) :
  inject_Z z <= q -> q < inject_Z (z + 1) -> Qfloor q = z.
Proof.
  intros Hlo Hhi.
  pose proof (Qfloor_resp_le _ _ Hlo) as H1. rewrite Qfloor_Z in H1.
  pose proof (Qfloor_le q) as H2.
  assert (H3 : inject_Z (Qfloor q) < inject_Z (z + 1)) by lra.
  rewrite <- Zlt_Qlt in H3. lia.
Qed.

Lemma newObstacle_small (r : Q) :
  0 <= r -> r < 1 # 2 -> newObstacle r = mkObstacle GAME_WIDTH 25 50 "CACTUS_SMALL".
Proof.
  intros H0 H1. unfold newObstacle.
  change (inject_Z (Z.of_nat (List.length obstacleTypes))) with 2.
  rewrite (Qfloor_unique (r * 2) 0);
    [reflexivity | change (0 <= r * 2); lra | change (r * 2 < 1); lra].
Qed.

Lemma newObstacle_large (r : Q) :
  1 # 2 <= r -> r < 1 -> newObstacle r = mkObstacle GAME_WIDTH 50 50 "CACTUS_LARGE".
Proof.
  intros H0 H1. unfold newObstacle.
  change (inject_Z (Z.of_nat (List.length obstacleTypes))) with 2.
  rewrite (Qfloor_unique (r * 2) 1);
    [reflexivity | change (1 <= r * 2); lra | change (r * 2 < 2); lra].
Qed.

Lemma random_range (r lo hi : Q) :
  0 <= r -> r < 1 -> lo < hi ->
  lo <= random r lo hi /\ random r lo hi < hi.
Proof.
  intros H0 H1 Hlh. unfold random.
  assert (Hd : 0 <= hi - lo) by lra.
  pose proof (Qmult_le_0_compat _ _ H0 Hd) as Hp.
  assert (Hq : 0 < (1 - r) * (hi - lo)) by (apply Qmult_lt_0_compat; lra).
  assert (Hr : (1 - r) * (hi - lo) == (hi - lo) - r * (hi - lo)) by ring.
  rewrite Hr in Hq. split; lra.
Qed.

Lemma spawn_cases (l : list Obstacle) (next speed dt rT rI : Q) :
  (next - dt * 1000 <= 0 /\
   spawn l next speed dt rT rI =
     (l ++ [newObstacle rT],
      random rI OBSTACLE_INTERVAL_MIN OBSTACLE_INTERVAL_MAX
        / (speed / INITIAL_SPEED))) \/
  (0 < next - dt * 1000 /\
   spawn l next speed dt rT rI = (l, next - dt * 1000)).
Proof.
  unfold spawn. destruct (Qle_bool _ _) eqn:E.
  - left. split; [apply Qle_bool_iff; exact E | reflexivity].
  - right. split; [apply Qle_bool_false_iff; exact E | reflexivity].
Qed.

Lemma App2_tick_world (g : Game) (dt rT rI : Q) :
  obstacles (App2.tick g dt rT rI) = fst (App1.worldStep g dt rT rI) /\
  nextObstacleTimeRef (App2.tick g dt rT rI) = snd (App1.worldStep g dt rT rI).
Proof.
  unfold App2.tick, App1.worldStep.
  destruct (spawn _ _ _ _ _ _) as [newObstacles next]. split; reflexivity.
Qed.

(** C5. In the spawn sub-step the countdown goes down by [dt*1000].  While
    it stays positive nothing is spawned.  When it is [<= 0], exactly one
    obstacle is appended behind the scrolled ones, at [x = GAME_WIDTH], of a
    catalog type chosen by the draw [rType] (each of the two types on half of
    the draws: [floor(rType * 2)]), and the countdown becomes
    [random(MIN, MAX) / (speed / INITIAL_SPEED)], where the drawn interval
    [rInterval * (MAX - MIN) + MIN] lies between MIN and MAX.  However
    negative the countdown is, the list grows by at most one obstacle.  Both
    versions of the tick store this countdown and (part_001: unless it detects
    a collision) this obstacle list. *)
Theorem spawn_countdown_single_obstacle
    (g : Game) (dt rType rInterval : Q)
    (HType : 0 <= rType /\ rType < 1)
    (HInterval : 0 <= rInterval /\ rInterval < 1) :
  let scrolled := scrollObstacles (obstacles g) (speed g) dt in
  let countdown := nextObstacleTimeRef g - dt * 1000 in
  let interval := rInterval * (OBSTACLE_INTERVAL_MAX - OBSTACLE_INTERVAL_MIN)
                  + OBSTACLE_INTERVAL_MIN in
  let o := newObstacle rType in
  (0 < countdown ->
     App1.worldStep g dt rType rInterval = (scrolled, countdown)) /\
  (countdown <= 0 ->
     App1.worldStep g dt rType rInterval
       = (scrolled ++ [o], interval / (speed g / INITIAL_SPEED))) /\
  x o = GAME_WIDTH /\
  In (type o, mkConfig (width o) (height o)) OBSTACLE_CONFIGS /\
  (type o = "CACTUS_SMALL"%string <-> rType < 1 # 2) /\
  (type o = "CACTUS_LARGE"%string <-> 1 # 2 <= rType) /\
  OBSTACLE_INTERVAL_MIN <= interval /\ interval <= OBSTACLE_INTERVAL_MAX /\
  (List.length (fst (App1.worldStep g dt rType rInterval))
     <= S (List.length scrolled))%nat /\
  nextObstacleTimeRef (App1.tick g dt rType rInterval)
    = snd (App1.worldStep g dt rType rInterval) /\
  (App1.detectsCollision g dt rType rInterval = false ->
   obstacles (App1.tick g dt rType rInterval)
     = fst (App1.worldStep g dt rType rInterval)) /\
  obstacles (App2.tick g dt rType rInterval)
    = fst (App1.worldStep g dt rType rInterval) /\
  nextObstacleTimeRef (App2.tick g dt rType rInterval)
    = snd (App1.worldStep g dt rType rInterval).
Proof.
  cbv zeta. destruct HType as [HT0 HT1]. destruct HInterval as [HI0 HI1].
  assert (Hcases := spawn_cases (scrollObstacles (obstacles g) (speed g) dt)
                      (nextObstacleTimeRef g) (speed g) dt rType rInterval).
  fold (App1.worldStep g dt rType rInterval) in Hcases.
  assert (Ho : (rType < 1 # 2 /\
                newObstacle rType = mkObstacle GAME_WIDTH 25 50 "CACTUS_SMALL") \/
               (1 # 2 <= rType /\
                newObstacle rType = mkObstacle GAME_WIDTH 50 50 "CACTUS_LARGE")).
  { destruct (Qlt_le_dec rType (1 # 2)) as [Hlt | Hge].
    - left. split; [exact Hlt | apply newObstacle_small; assumption].
    - right. split; [exact Hge | apply newObstacle_large; assumption]. }
  assert (Hr := random_range rInterval OBSTACLE_INTERVAL_MIN OBSTACLE_INTERVAL_MAX
                  HI0 HI1 eq_refl).
  unfold random in Hr.
  split; [|split].
  - intro Hpos. destruct Hcases as [[Hle _] | [_ E]]; [lra | exact E].
  - intro Hle. destruct Hcases as [[_ E] | [Hpos _]]; [exact E | lra].
  - split; [destruct Ho as [[_ E] | [_ E]]; rewrite E; reflexivity|].
    split; [destruct Ho as [[_ E] | [_ E]]; rewrite E; simpl; auto|].
    split; [|split].
    + destruct Ho as [[Hlt E] | [Hge E]]; rewrite E; simpl; split; intro H;
        try assumption; try reflexivity; try discriminate H; lra.
    + destruct Ho as [[Hlt E] | [Hge E]]; rewrite E; simpl; split; intro H;
        try assumption; try reflexivity; try discriminate H; lra.
    + split; [lra|]. split; [lra|].
      split.
      { destruct Hcases as [[_ E] | [_ E]]; rewrite E; simpl.
        - rewrite length_app. simpl. lia.
        - lia. }
      split.
      { destruct (tick_cases g dt rType rInterval) as [[_ E] | [_ E]];
          rewrite E; reflexivity. }
      split.
      { intro D. destruct (tick_cases g dt rType rInterval) as [[D' _] | [_ E]];
          [congruence | rewrite E; reflexivity]. }
      apply App2_tick_world.
Qed.

Lemma spawn_countdown_single_obstacle_witness :
  (0 <= 3 # 4 /\ 3 # 4 < 1) /\ (0 <= 1 # 2 /\ 1 # 2 < 1) /\
  type (newObstacle (3 # 4)) = "CACTUS_LARGE"%string.
Proof.
  assert (HT : 0 <= 3 # 4 /\ 3 # 4 < 1) by (split; reflexivity || (vm_compute; discriminate)).
  assert (HI : 0 <= 1 # 2 /\ 1 # 2 < 1) by (split; reflexivity || (vm_compute; discriminate)).
  split; [exact HT|]. split; [exact HI|].
  pose proof (spawn_countdown_single_obstacle aboutToCrash (1 # 60) (3 # 4) (1 # 2) HT HI)
    as H.
  cbv zeta in H.
  apply (proj2 (proj1 (proj2 (proj2 (proj2 (proj2 (proj2 H))))))).
  vm_compute. discriminate.
Defined.

Example spawn_fires :
  spawn [] 10 INITIAL_SPEED (1 # 60) (3 # 4) (1 # 2)
  = ([mkObstacle GAME_WIDTH 50 50 "CACTUS_LARGE"],
     ((1 # 2) * (OBSTACLE_INTERVAL_MAX - OBSTACLE_INTERVAL_MIN) + OBSTACLE_INTERVAL_MIN)
       / (INITIAL_SPEED / INITIAL_SPEED)).
Proof. reflexivity. Qed.

Example spawn_far_negative_still_one :
  List.length (fst (spawn [] (-100000) INITIAL_SPEED 10 0 0)) = 1%nat.
Proof. reflexivity. Qed.

(** ** Jumping and landing *)

Lemma stepDino_cases (d : DinosaurState) (dt : Q) :
  let vy1 := vy d + GRAVITY * dt in
  let y1 := y d + vy1 * dt in
  let ground := App1.groundPosition (status d) in
  (ground <= y1 /\ stepDino d dt = mkDino ground 0 (status d)) \/
  (y1 < ground /\ stepDino d dt = mkDino y1 vy1 (status d)).
Proof.
  cbv zeta. unfold stepDino.
  destruct (kinematics_cases d dt) as [[H E] | [H E]]; cbv zeta in H, E;
    rewrite E; simpl; [left | right]; split; auto.
Qed.

Lemma fall_status (k : nat) (dt : Q) (d : DinosaurState) :
  status (fall k dt d) = status d.
Proof. induction k as [|k IH]; simpl; [reflexivity | exact IH]. Qed.

Lemma fall2_fall (k : nat) (dt : Q) (d : DinosaurState) :
  fall2 k dt d = fall k dt d.
Proof.
  induction k as [|k IH]; simpl; [reflexivity|].
  rewrite IH. apply updateDino_stepDino.
Qed.

(** After any committed tick the player is not below its ground level. *)
Lemma fall_le_ground (k : nat) (dt : Q) (d : DinosaurState) :
  y (fall (S k) dt d) <= App1.groundPosition (status d).
Proof.
  cbn [fall]. rewrite <- (fall_status k dt d).
  destruct (stepDino_cases (fall k dt d) dt) as [[H E] | [H E]]; cbv zeta in H, E;
    rewrite E; simpl; lra.
Qed.

(** A player resting on the ground stays there. *)
Lemma stepDino_resting (d : DinosaurState) (dt : Q) :
  0 <= dt -> y d == App1.groundPosition (status d) -> vy d == 0 ->
  stepDino d dt = mkDino (App1.groundPosition (status d)) 0 (status d).
Proof.
  intros Hdt Hy Hvy.
  destruct (stepDino_cases d dt) as [[H E] | [H E]]; cbv zeta in H, E;
    [exact E|].
  exfalso. pose proof (Qmult_le_0_compat _ _ Hdt Hdt) as Hsq.
  unfold GRAVITY in H.
  assert (Hexp : y d + (vy d + 1800 * dt) * dt
                 == y d + vy d * dt + 1800 * (dt * dt)) by ring.
  rewrite Hexp, Hvy, Hy in H. lra.
Qed.

Lemma fall_resting (m k : nat) (dt : Q) (d : DinosaurState) :
  0 <= dt ->
  y (fall k dt d) == App1.groundPosition (status d) -> vy (fall k dt d) == 0 ->
  y (fall (m + k) dt d) == App1.groundPosition (status d) /\
  vy (fall (m + k) dt d) == 0.
Proof.
  intros Hdt Hy Hvy. induction m as [|m [IHy IHvy]]; cbn [fall Nat.add].
  - split; assumption.
  - rewrite stepDino_resting; try assumption.
    + rewrite fall_status. simpl. split; reflexivity.
    + rewrite fall_status. exact IHy.
Qed.

(** Free flight: until the first landing the player follows the closed form
    [vy_k = vy + G*dt*k], [y_k = y + dt*k*(vy + G*dt*(k+1)/2)]. *)
Lemma fall_flight (dt : Q) (d : DinosaurState) (k : nat) :
  let ground := App1.groundPosition (status d) in
  let n := inject_Z (Z.of_nat k) in
  (exists j, (1 <= j <= k)%nat /\
     fall j dt d = mkDino ground 0 (status d) /\
     forall i, (1 <= i < j)%nat -> y (fall i dt d) < ground) \/
  ((forall i, (1 <= i <= k)%nat -> y (fall i dt d) < ground) /\
   vy (fall k dt d) == vy d + GRAVITY * dt * n /\
   y (fall k dt d) == y d + dt * n * (vy d + GRAVITY * dt * (n + 1) * (1 # 2))).
Proof.
  cbv zeta. induction k as [|k IH].
  - right. split; [intros i Hi; lia|]. simpl. split; ring.
  - destruct IH as [(j & Hj & Hland & Hair) | (Hair & Hvy & Hy)].
    + left. exists j. split; [lia|]. split; assumption.
    + change (fall (S k) dt d) with (stepDino (fall k dt d) dt).
      destruct (stepDino_cases (fall k dt d) dt) as [[H E] | [H E]];
        cbv zeta in H, E; rewrite fall_status in *.
      * left. exists (S k). split; [lia|]. split; [exact E|].
        intros i Hi. apply Hair. lia.
      * right. split.
        { intros i Hi. destruct (Nat.eq_dec i (S k)) as [-> | Hne].
          - change (fall (S k) dt d) with (stepDino (fall k dt d) dt).
            rewrite E. simpl. exact H.
          - apply Hair. lia. }
        rewrite E. simpl y. simpl vy.
        rewrite Nat2Z.inj_succ. unfold Z.succ. rewrite inject_Z_plus.
        change (inject_Z 1) with 1.
        rewrite Hvy, Hy. split; ring.
Qed.

(** Some number of frames is enough for gravity to outweigh the impulse. *)
Lemma frames_enough (dt v : Q) :
  0 < dt -> exists k : nat, (1 <= k)%nat /\
    0 <= v + GRAVITY * dt * (inject_Z (Z.of_nat k) + 1) * (1 # 2).
Proof.
  intro Hdt. unfold GRAVITY.
  set (q := (-v) / (900 * dt)).
  exists (S (Z.to_nat (Qceiling q))). split; [lia|].
  pose proof (Qle_ceiling q) as Hq.
  assert (Hc : inject_Z (Qceiling q) <= inject_Z (Z.of_nat (S (Z.to_nat (Qceiling q))))).
  { rewrite <- Zle_Qle. lia. }
  assert (Hpos : 0 < 900 * dt) by lra.
  assert (Hm : 900 * dt * q <= 900 * dt * inject_Z (Z.of_nat (S (Z.to_nat (Qceiling q))))).
  { apply Qmult_le_l; [exact Hpos | lra]. }
  assert (Hq' : 900 * dt * q == - v).
  { unfold q. field. lra. }
  rewrite Hq' in Hm.
  set (n := inject_Z (Z.of_nat (S (Z.to_nat (Qceiling q))))) in *.
  assert (Hexp : v + 1800 * dt * (n + 1) * (1 # 2) == v + 900 * dt * n + 900 * dt)
    by ring.
  rewrite Hexp. lra.
Qed.

Lemma jump_lands (d : DinosaurState) (dt : Q) :
  0 < dt -> App1.groundPosition (status d) <= y d ->
  exists n, (1 <= n)%nat /\
    (forall i, (1 <= i < n)%nat -> y (fall i dt d) < App1.groundPosition (status d)) /\
    fall n dt d = mkDino (App1.groundPosition (status d)) 0 (status d).
Proof.
  intros Hdt Hy0.
  destruct (frames_enough dt (vy d) Hdt) as (k & Hk & Hv).
  destruct (fall_flight dt d k) as [(j & Hj & Hland & Hair) | (Hair & _ & Hy)].
  - exists j. split; [lia|]. split; assumption.
  - exfalso. specialize (Hair k (conj Hk (Nat.le_refl k))).
    assert (Hn : 0 <= inject_Z (Z.of_nat k)).
    { change 0 with (inject_Z 0). rewrite <- Zle_Qle. lia. }
    assert (Hdn : 0 <= dt * inject_Z (Z.of_nat k))
      by (apply Qmult_le_0_compat; lra).
    pose proof (Qmult_le_0_compat _ _ Hdn Hv) as Hp.
    rewrite Hy in Hair. lra.
Qed.

Lemma jump_cases (d : DinosaurState) :
  (App1.groundPosition (status d) <= y d /\
   App1.jump d = mkDino (y d) (- JUMP_FORCE) (status d)) \/
  (y d < App1.groundPosition (status d) /\ App1.jump d = d).
Proof.
  unfold App1.jump, App1.groundPosition.
  destruct (Qle_bool _ _) eqn:E.
  - left. split; [apply Qle_bool_iff; exact E | reflexivity].
  - right. split; [apply Qle_bool_false_iff; exact E | reflexivity].
Qed.

Lemma jump_versions (d : DinosaurState) : App2.jump d d = App1.jump d.
Proof.
  unfold App2.jump, App1.jump.
  replace (App2.getDinoDimensions d) with (App1.getDinoDimensions (status d))
    by (destruct d as [? ? []]; reflexivity).
  reflexivity.
Qed.

(** While the game runs, Space and ArrowUp apply the jump updater to the
    player and touch nothing else, in both versions. *)
Lemma handleKeyDown_jump (g : Game) (code : string) (r : Q) :
  gameState g = running -> isConfirm code = true ->
  handleKeyDown1 g code r
  = mkGame running (App1.jump (dino g)) (obstacles g) (score g) (highScore g)
           (speed g) (lastTimeRef g) (nextObstacleTimeRef g) /\
  handleKeyDown2 g code r = handleKeyDown1 g code r.
Proof.
  intros Hrun Hkey. unfold handleKeyDown1, handleKeyDown2.
  rewrite Hrun, Hkey, jump_versions. split; reflexivity.
Qed.

(** A player that stands below the ground level of its status is not at
    ground level, and a jump input still gives it the impulse.  The state is
    one the game reaches: it is where releasing ArrowDown leaves a player that
    ducked on the ground. *)
Lemma jump_fires_below_ground_level :
  gameState afterDuckRelease = running /\
  status (dino afterDuckRelease) = st_running /\
  y (dino afterDuckRelease) == 200 /\
  vy (dino afterDuckRelease) == 0 /\
  App1.groundPosition (status (dino afterDuckRelease)) == 183 /\
  ~ (y (dino afterDuckRelease)
     == App1.groundPosition (status (dino afterDuckRelease))) /\
  vy (dino (handleKeyDown1 afterDuckRelease "Space" 0)) == - (650) /\
  ~ (vy (App1.jump (dino afterDuckRelease)) == vy (dino afterDuckRelease)) /\
  ~ (vy (App2.jump (dino afterDuckRelease) (dino afterDuckRelease))
     == vy (dino afterDuckRelease)).
Proof.
  repeat split; try reflexivity; intro H; vm_compute in H; discriminate.
Qed.

Lemma square_nonneg (u : Q) : 0 <= u * u.
Proof.
  destruct (Qlt_le_dec u 0) as [H | H].
  - assert (E : u * u == (- u) * (- u)) by ring. rewrite E.
    apply Qmult_le_0_compat; lra.
  - apply Qmult_le_0_compat; assumption.
Qed.

Lemma fallFrames_snoc (pre : list Q) (dt : Q) (d : DinosaurState) :
  fallFrames (pre ++ [dt]) d = stepDino (fallFrames pre d) dt.
Proof. unfold fallFrames. rewrite fold_left_app. reflexivity. Qed.

Lemma fallFrames_app (pre suf : list Q) (d : DinosaurState) :
  fallFrames (pre ++ suf) d = fallFrames suf (fallFrames pre d).
Proof. unfold fallFrames. apply fold_left_app. Qed.

Lemma fallFrames_status (dts : list Q) (d : DinosaurState) :
  status (fallFrames dts d) = status d.
Proof.
  revert d. induction dts as [|dt dts IH]; intro d; [reflexivity|].
  change (fallFrames (dt :: dts) d) with (fallFrames dts (stepDino d dt)).
  rewrite IH. reflexivity.
Qed.

(** After any committed tick, whatever its length, the player is not below
    its ground level. *)
Lemma fallFrames_le_ground (dts : list Q) (d : DinosaurState) :
  dts <> [] -> y (fallFrames dts d) <= App1.groundPosition (status d).
Proof.
  intro Hne. destruct (exists_last Hne) as (pre & dt & ->).
  rewrite fallFrames_snoc, <- (fallFrames_status pre d).
  apply (fall_le_ground 0 dt (fallFrames pre d)).
Qed.

Lemma fallFrames_resting (dts : list Q) (d : DinosaurState) :
  Forall (fun dt => 0 <= dt) dts -> dts <> [] ->
  y d == App1.groundPosition (status d) -> vy d == 0 ->
  fallFrames dts d = mkDino (App1.groundPosition (status d)) 0 (status d).
Proof.
  revert d. induction dts as [|dt dts IH]; intros d Hall Hne Hy Hvy;
    [contradiction|].
  inversion Hall as [|? ? Hdt Hrest]; subst.
  change (fallFrames (dt :: dts) d) with (fallFrames dts (stepDino d dt)).
  rewrite (stepDino_resting d dt Hdt Hy Hvy).
  destruct dts as [|dt' dts']; [reflexivity|].
  apply (IH (mkDino (App1.groundPosition (status d)) 0 (status d)) Hrest);
    [discriminate | reflexivity | reflexivity].
Qed.

(** Frames that cover enough time bring the player down: if the parabola of
    the free flight, taken over the whole time of the frames, ends at or
    below the ground, one of the frames is the landing. *)
Lemma frames_landing (dts : list Q) (d : DinosaurState) :
  Forall (fun dt => 0 <= dt) dts -> dts <> [] ->
  App1.groundPosition (status d)
    <= y d + vy d * totalTime dts
       + GRAVITY * (1 # 2) * (totalTime dts * totalTime dts) ->
  exists before dt after,
    dts = before ++ dt :: after /\
    fallFrames (before ++ [dt]) d
    = mkDino (App1.groundPosition (status d)) 0 (status d) /\
    (forall pre suf, before = pre ++ suf -> pre <> [] ->
       y (fallFrames pre d) < App1.groundPosition (status d)).
Proof.
  revert d. induction dts as [|dt dts IH]; intros d Hall Hne Hpar;
    [contradiction|].
  inversion Hall as [|? ? Hdt Hrest]; subst.
  change (totalTime (dt :: dts)) with (dt + totalTime dts) in Hpar.
  destruct (stepDino_cases d dt) as [[Hy E] | [Hy E]]; cbv zeta in Hy, E.
  - exists [], dt, dts. split; [reflexivity|]. split; [exact E|].
    intros pre suf Hsplit Hpre. destruct pre; [contradiction | discriminate].
  - set (d' := stepDino d dt) in *.
    assert (Hs : status d' = status d) by (rewrite E; reflexivity).
    assert (Hy' : y d' == y d + (vy d + GRAVITY * dt) * dt)
      by (rewrite E; reflexivity).
    assert (Hvy' : vy d' == vy d + GRAVITY * dt) by (rewrite E; reflexivity).
    pose proof (square_nonneg dt) as Hsq. unfold GRAVITY in *.
    assert (Hpar' : App1.groundPosition (status d')
                    <= y d' + vy d' * totalTime dts
                       + 1800 * (1 # 2) * (totalTime dts * totalTime dts)).
    { rewrite Hs, Hy', Hvy'.
      assert (Hexp : y d + (vy d + 1800 * dt) * dt
                     + (vy d + 1800 * dt) * totalTime dts
                     + 1800 * (1 # 2) * (totalTime dts * totalTime dts)
                     == y d + vy d * (dt + totalTime dts)
                        + 1800 * (1 # 2)
                          * ((dt + totalTime dts) * (dt + totalTime dts))
                        + 900 * (dt * dt)) by ring.
      rewrite Hexp. lra. }
    assert (Hne' : dts <> []).
    { intros ->. change (totalTime []) with 0 in Hpar'.
      rewrite Hs in Hpar'. rewrite Hy' in Hpar'. lra. }
    destruct (IH d' Hrest Hne' Hpar') as (before & dt' & after & -> & Hland & Hair).
    exists (dt :: before), dt', after. split; [reflexivity|].
    rewrite Hs in Hland, Hair. split; [exact Hland|].
    intros pre suf Hsplit Hpre.
    destruct pre as [|p pre]; [contradiction|].
    injection Hsplit as <- Hsplit.
    change (fallFrames (dt :: pre) d) with (fallFrames pre d').
    destruct pre as [|p' pre'].
    + change (fallFrames [] d') with d'. rewrite Hy'. exact Hy.
    + apply (Hair (p' :: pre') suf Hsplit). discriminate.
Qed.

Lemma jump_lands_in_frames (dts : list Q) (d : DinosaurState) :
  Forall (fun dt => 0 <= dt) dts ->
  App1.groundPosition (status d) <= y d ->
  2 * JUMP_FORCE / GRAVITY <= totalTime dts ->
  exists before dt after,
    dts = before ++ dt :: after /\
    fallFrames (before ++ [dt]) (App1.jump d)
    = mkDino (App1.groundPosition (status d)) 0 (status d) /\
    (forall pre suf, before = pre ++ suf -> pre <> [] ->
       y (fallFrames pre (App1.jump d)) < App1.groundPosition (status d)).
Proof.
  intros Hall Hy HT.
  destruct (jump_cases d) as [[_ E] | [H' _]]; [|lra]. rewrite E.
  assert (HT' : 13 # 18 <= totalTime dts).
  { assert (Hc : 2 * JUMP_FORCE / GRAVITY == 13 # 18) by reflexivity.
    rewrite Hc in HT. exact HT. }
  apply (frames_landing dts (mkDino (y d) (- JUMP_FORCE) (status d)) Hall).
  - intros ->. change (totalTime []) with 0 in HT'. lra.
  - cbn [y vy status]. unfold JUMP_FORCE, GRAVITY.
    set (T := totalTime dts) in *.
    assert (Hp : 0 <= T * (900 * T - 650)) by (apply Qmult_le_0_compat; lra).
    assert (Hexp : y d + - (650) * T + 1800 * (1 # 2) * (T * T)
                   == y d + T * (900 * T - 650)) by ring.
    rewrite Hexp. lra.
Qed.

(** Ticks of length 0 leave a player in flight where it is. *)
Lemma zero_length_ticks_never_land (n : nat) (d : DinosaurState) :
  y d < App1.groundPosition (status d) ->
  y (fallFrames (repeat 0 n) d) == y d /\
  vy (fallFrames (repeat 0 n) d) == vy d.
Proof.
  revert d. induction n as [|n IH]; intros d Hy; [split; reflexivity|].
  change (fallFrames (repeat 0 (S n)) d)
    with (fallFrames (repeat 0 n) (stepDino d 0)).
  destruct (stepDino_cases d 0) as [[H E] | [H E]]; cbv zeta in H, E.
  - exfalso. lra.
  - rewrite E.
    destruct (IH (mkDino (y d + (vy d + GRAVITY * 0) * 0) (vy d + GRAVITY * 0)
                         (status d))) as [IHy IHvy]; [exact H|].
    rewrite IHy, IHvy. cbn [y vy]. split; ring.
Qed.

(** A second jump before the landing.  The player jumps from the ground and
    is in flight for 20 frames of 1/30 s, above the ground after each of
    them.  ArrowDown is then held for one frame, in which the player, still in
    flight, passes the running ground level on its way to the ducking one,
    and released: the player now has status [running] and stands below the
    running ground level without having landed ([vy] was never reset).  Space
    gives it the impulse again, and the next frame has it back above the
    ground, rising. *)
Lemma second_jump_in_flight :
  (forall i, (1 <= i <= 20)%nat ->
     gameState (midAirFlight i) = running /\
     y (dino (midAirFlight i)) < App1.groundPosition st_running) /\
  (status (dino midAirDuck) = st_ducking /\
   y (dino midAirDuck) < App1.groundPosition st_ducking /\
   0 < vy (dino midAirDuck)) /\
  (gameState afterMidAirDuck = running /\
   status (dino afterMidAirDuck) = st_running /\
   App1.groundPosition st_running < y (dino afterMidAirDuck) /\
   vy (dino afterMidAirDuck) == 610) /\
  vy (dino (handleKeyDown1 afterMidAirDuck "Space" 0)) == - (650) /\
  ~ (App1.jump (dino afterMidAirDuck) = dino afterMidAirDuck) /\
  (let next := App1.tick (handleKeyDown1 afterMidAirDuck "Space" 0) (1 # 30) 0 0 in
   y (dino next) < App1.groundPosition st_running /\ vy (dino next) < 0).
Proof.
  split.
  { assert (Hall : forallb
              (fun i => match gameState (midAirFlight i) with
                        | running =>
                            Qlt_bool (y (dino (midAirFlight i)))
                                     (App1.groundPosition st_running)
                        | _ => false
                        end) (seq 1 20) = true) by (vm_compute; reflexivity).
    intros i Hi. rewrite forallb_forall in Hall.
    specialize (Hall i). rewrite in_seq in Hall. specialize (Hall ltac:(lia)).
    destruct (gameState (midAirFlight i)); try discriminate Hall.
    split; [reflexivity | apply Qlt_bool_iff; exact Hall]. }
  split; [repeat split; vm_compute; reflexivity|].
  split; [repeat split; vm_compute; reflexivity|].
  split; [vm_compute; reflexivity|].
  split.
  { intro H. apply (f_equal vy) in H. vm_compute in H. discriminate H. }
  cbv zeta. split; vm_compute; reflexivity.
Qed.

(** C6 (amended). A jump input changes the player state only when
    [y >= groundY(status)], that is at ground level or below it, and then sets
    [vy = -JUMP_FORCE = -650] and nothing else; while [y < groundY(status)]
    it leaves the player state unchanged, in both versions.  After such a
    jump and with no further input: no tick, whatever its length, leaves the
    player below [groundY]; with frames of any fixed length [dt > 0] there is
    a first frame at which the player is back at [groundY] with [vy = 0];
    with frames of any lengths [dt >= 0], one of the frames up to the first
    at which their lengths add up to [2*JUMP_FORCE/GRAVITY] = 13/18 s is that
    landing (ticks of length 0 leave a player in flight where it is: it is
    the time covered that counts, not the number of ticks); before the
    landing the player is strictly above the ground and a further jump input
    does nothing, from the landing on the player rests on the ground.  A
    second jump before the landing is excluded only while the
    status stays the same: [groundY] depends on the status, and a player that
    ducks in flight and is released can stand below the running ground level
    without having landed; a jump input then sets [vy = -650] again. *)
Theorem jump_impulse_and_landing (d : DinosaurState) :
  let ground := App1.groundPosition (status d) in
  (ground <= y d ->
     App1.jump d = mkDino (y d) (- JUMP_FORCE) (status d)) /\
  (y d < ground -> App1.jump d = d) /\
  - JUMP_FORCE == - (650) /\
  App2.jump d d = App1.jump d /\
  (forall k dt, fall2 k dt (App2.jump d d) = fall k dt (App1.jump d)) /\
  (forall dt, 0 < dt -> ground <= y d ->
     exists n, (1 <= n)%nat /\
       (forall i, (1 <= i < n)%nat ->
          y (fall i dt (App1.jump d)) < ground /\
          App1.jump (fall i dt (App1.jump d)) = fall i dt (App1.jump d)) /\
       (forall m, (n <= m)%nat ->
          y (fall m dt (App1.jump d)) == ground /\
          vy (fall m dt (App1.jump d)) == 0) /\
       (forall k, (1 <= k)%nat -> y (fall k dt (App1.jump d)) <= ground) /\
       (y d == ground -> forall k, y (fall k dt (App1.jump d)) <= ground)) /\
  (forall dts, dts <> [] -> y (fallFrames dts (App1.jump d)) <= ground) /\
  2 * JUMP_FORCE / GRAVITY == 13 # 18 /\
  (forall dts,
     Forall (fun dt => 0 <= dt) dts -> ground <= y d ->
     2 * JUMP_FORCE / GRAVITY <= totalTime dts ->
     exists before dt after,
       dts = before ++ dt :: after /\
       (forall pre suf, before = pre ++ suf -> pre <> [] ->
          y (fallFrames pre (App1.jump d)) < ground /\
          App1.jump (fallFrames pre (App1.jump d))
          = fallFrames pre (App1.jump d)) /\
       fallFrames (before ++ [dt]) (App1.jump d) = mkDino ground 0 (status d) /\
       (forall more, Forall (fun dt' => 0 <= dt') more ->
          fallFrames (before ++ dt :: more) (App1.jump d)
          = mkDino ground 0 (status d))) /\
  (forall n, y d < ground ->
     y (fallFrames (repeat 0 n) d) == y d /\
     vy (fallFrames (repeat 0 n) d) == vy d) /\
  ((forall i, (1 <= i <= 20)%nat ->
      gameState (midAirFlight i) = running /\
      y (dino (midAirFlight i)) < App1.groundPosition st_running) /\
   status (dino afterMidAirDuck) = st_running /\
   App1.groundPosition st_running < y (dino afterMidAirDuck) /\
   vy (dino afterMidAirDuck) == 610 /\
   vy (App1.jump (dino afterMidAirDuck)) == - (650)).
Proof.
  cbv zeta.
  assert (Hjs : status (App1.jump d) = status d)
    by (destruct (jump_cases d) as [[_ E] | [_ E]]; rewrite E; reflexivity).
  assert (Hnoop : forall d', status d' = status d ->
            y d' < App1.groundPosition (status d) -> App1.jump d' = d').
  { intros d' Hs Hy'. destruct (jump_cases d') as [[H' _] | [_ E]];
      [rewrite Hs in H'; lra | exact E]. }
  split; [|split; [|split; [|split; [|split; [|split; [|split; [|split;
    [|split; [|split]]]]]]]]].
  - intro H. destruct (jump_cases d) as [[_ E] | [H' _]]; [exact E | lra].
  - intro H. destruct (jump_cases d) as [[H' _] | [_ E]]; [lra | exact E].
  - reflexivity.
  - apply jump_versions.
  - intros k dt. rewrite jump_versions. apply fall2_fall.
  - intros dt Hdt Hy.
    destruct (jump_cases d) as [[_ E] | [H' _]]; [|lra].
    rewrite E in *.
    set (d0 := mkDino (y d) (- JUMP_FORCE) (status d)) in *.
    assert (Hs : status d0 = status d) by reflexivity.
    destruct (jump_lands d0 dt Hdt) as (n & Hn & Hair & Hland);
      [rewrite Hs; exact Hy|].
    rewrite Hs in Hair, Hland.
    assert (Hk : forall k, (1 <= k)%nat ->
                   y (fall k dt d0) <= App1.groundPosition (status d)).
    { intros k Hk. destruct k as [|k]; [lia|]. rewrite <- Hs. apply fall_le_ground. }
    exists n. split; [exact Hn|]. split; [|split; [|split]].
    + intros i Hi. split; [apply Hair; exact Hi|].
      apply Hnoop; [rewrite fall_status; reflexivity | apply Hair; exact Hi].
    + intros m Hm. replace m with ((m - n) + n)%nat by lia.
      rewrite <- Hs. apply fall_resting; [lra| |]; rewrite Hland; simpl; reflexivity.
    + exact Hk.
    + intros Hg k. destruct k as [|k]; [simpl; lra|]. apply Hk. lia.
  - intros dts Hne. rewrite <- Hjs. apply fallFrames_le_ground. exact Hne.
  - reflexivity.
  - intros dts Hall Hy HT.
    destruct (jump_lands_in_frames dts d Hall Hy HT)
      as (before & dt & after & Hsplit & Hland & Hair).
    exists before, dt, after. split; [exact Hsplit|]. split; [|split].
    + intros pre suf Hpre Hne. split; [apply (Hair pre suf Hpre Hne)|].
      apply Hnoop; [rewrite fallFrames_status; exact Hjs
                   | apply (Hair pre suf Hpre Hne)].
    + exact Hland.
    + intros more Hmore.
      change (before ++ dt :: more) with (before ++ [dt] ++ more).
      rewrite app_assoc, fallFrames_app, Hland.
      destruct more as [|m more']; [reflexivity|].
      apply (fallFrames_resting (m :: more')
               (mkDino (App1.groundPosition (status d)) 0 (status d)) Hmore);
        [discriminate | reflexivity | reflexivity].
  - intros n Hy. apply zero_length_ticks_never_land. exact Hy.
  - destruct second_jump_in_flight as (Hfl & _ & (_ & Hst & Hy & Hvy) & _).
    split; [exact Hfl|]. split; [exact Hst|]. split; [exact Hy|].
    split; [exact Hvy|]. vm_compute. reflexivity.
Qed.

Lemma jump_impulse_and_landing_witness :
  let d := mkDino (GROUND_Y - 47) 0 st_running in
  App1.groundPosition (status d) <= y d /\
  App1.jump d = mkDino (y d) (- JUMP_FORCE) (status d).
Proof.
  cbv zeta.
  assert (H : App1.groundPosition (status (mkDino (GROUND_Y - 47) 0 st_running))
              <= y (mkDino (GROUND_Y - 47) 0 st_running))
    by (vm_compute; discriminate).
  split; [exact H|].
  exact (proj1 (jump_impulse_and_landing (mkDino (GROUND_Y - 47) 0 st_running)) H).
Defined.

Example jump_lands_after_43_frames :
  let d := App1.jump (mkDino (GROUND_Y - 47) 0 st_running) in
  y (fall 42 (1 # 60) d) < GROUND_Y - 47 /\
  fall 43 (1 # 60) d = mkDino (GROUND_Y - 47) 0 st_running.
Proof. vm_compute. split; reflexivity. Qed.

(** ** High score *)

Lemma getItem_setItem (key value : string) (ls : Storage) :
  getItem key (setItem key value ls) = Some value.
Proof. simpl. rewrite String.eqb_refl. reflexivity. Qed.

Lemma getItem_setItem_other (key key' value : string) (ls : Storage) :
  key <> key' -> getItem key' (setItem key value ls) = getItem key' ls.
Proof.
  intro Hne. simpl. destruct (String.eqb key key') eqn:E; [|reflexivity].
  apply String.eqb_eq in E. contradiction.
Qed.

(** C7. On entering [gameOver] the high score becomes
    [max(previous high score, floor(score))].  When [floor(score)] exceeds the
    previous high score it is written, in decimal, to the store under the key
    [dinoHighScore], and only that key is affected; otherwise neither the
    game (so neither the high score) nor the store changes. *)
Theorem gameOver_records_high_score (g : Game) (ls : Storage)
    (Hover : gameState g = gameOver) :
  let finalScore := Qfloor (score g) in
  let g' := fst (gameStateEffect g ls) in
  let ls' := snd (gameStateEffect g ls) in
  highScore g' == Qmax (highScore g) (inject_Z finalScore) /\
  (highScore g < inject_Z finalScore ->
     highScore g' = inject_Z finalScore /\
     ls' = setItem "dinoHighScore" (toString finalScore) ls /\
     getItem "dinoHighScore" ls' = Some (toString finalScore) /\
     (forall key, key <> "dinoHighScore"%string -> getItem key ls' = getItem key ls)) /\
  (inject_Z finalScore <= highScore g -> g' = g /\ ls' = ls) /\
  (gameState g', dino g', obstacles g', score g', speed g',
   lastTimeRef g', nextObstacleTimeRef g')
  = (gameState g, dino g, obstacles g, score g, speed g,
     lastTimeRef g, nextObstacleTimeRef g).
Proof.
  cbv zeta. unfold gameStateEffect. rewrite Hover.
  destruct (Qlt_bool (highScore g) (inject_Z (Qfloor (score g)))) eqn:E.
  - apply Qlt_bool_iff in E. cbn [fst snd highScore].
    split; [rewrite Q.max_r; [reflexivity | lra]|].
    split; [|split; [intro H; lra | rewrite ?Hover; reflexivity]].
    intros _. split; [reflexivity|]. split; [reflexivity|].
    split; [apply getItem_setItem|].
    intros key Hne. apply getItem_setItem_other. congruence.
  - apply Qlt_bool_false_iff in E. cbn [fst snd].
    split; [rewrite Q.max_l; [reflexivity | exact E]|].
    split; [intro H; lra|]. split; [|rewrite ?Hover; reflexivity].
    intros _. split; reflexivity.
Qed.

Lemma gameOver_records_high_score_witness :
  gameState crashed = gameOver /\
  highScore crashed < inject_Z (Qfloor (score crashed)) /\
  snd (gameStateEffect crashed []) = [("dinoHighScore"%string, "120"%string)].
Proof.
  assert (Hover : gameState crashed = gameOver) by reflexivity.
  assert (Hrec : highScore crashed < inject_Z (Qfloor (score crashed)))
    by reflexivity.
  split; [exact Hover|]. split; [exact Hrec|].
  exact (proj1 (proj2 (proj1 (proj2
           (gameOver_records_high_score crashed [] Hover)) Hrec))).
Defined.

Example gameOver_effect_runs_once :
  let '(g', ls') := gameStateEffect crashed [] in
  gameStateEffect g' ls' = (g', ls').
Proof. reflexivity. Qed.

(** ** The falling scenario *)

Lemma fall_from_203_lands (j : nat) :
  fall (S j) (1 # 60) (mkDino 203 0 st_running)
  = mkDino (App1.groundPosition st_running) 0 st_running.
Proof.
  induction j as [|j IH]; [reflexivity|].
  change (fall (S (S j)) (1 # 60) (mkDino 203 0 st_running))
    with (stepDino (fall (S j) (1 # 60) (mkDino 203 0 st_running)) (1 # 60)).
  rewrite IH. reflexivity.
Qed.

(** y counts pixels from the top, so the start [y = 203] is already 20
    pixels beyond [groundY = 183], and the first tick does not let the player
    descend: it puts it up on [groundY], a smaller y.  The run of y is 203,
    183, 183, ... and not a monotone descent. *)
Lemma fall_from_203_moves_up :
  let d0 := mkDino 203 0 st_running in
  let dt := 1 # 60 in
  App1.groundPosition (status d0) == 183 /\
  App1.groundPosition (status d0) < y d0 /\
  y (fall 1 dt d0) == 183 /\
  y (fall 1 dt d0) < y (fall 0 dt d0) /\
  ~ (forall k, (1 <= k <= 10)%nat ->
       y (fall (k - 1) dt d0) <= y (fall k dt d0)) /\
  ~ (forall k, (k <= 10)%nat ->
       y (fall k dt d0) <= App1.groundPosition (status d0)).
Proof.
  cbv zeta. split; [reflexivity|]. split; [reflexivity|].
  split; [reflexivity|]. split; [reflexivity|]. split.
  - intro H. specialize (H 1%nat ltac:(lia)). vm_compute in H. apply H. reflexivity.
  - intro H. specialize (H 0%nat ltac:(lia)). vm_compute in H. apply H. reflexivity.
Qed.

(** C8 (amended). From [y = 203], [vy = 0] with running dimensions
    ([GRAVITY = 1800], [GROUND_Y = 230], height 47, so [groundY = 183]; y
    counts pixels from the top, so the start is 20 pixels beyond [groundY])
    and ten ticks of [dt = 1/60] without input, the player does not descend:
    the first tick clamps it up to [groundY = 183] with [vy = 0] and every
    later tick leaves it exactly there, so its y never increases and no tick
    leaves it beyond [groundY]; both versions of the kinematics behave so.
    It is from [y = 163], 20 pixels above [groundY], that the same ticks make
    the player descend: y grows strictly for eight ticks, staying above
    [groundY], and the ninth tick clamps it at [groundY = 183] with
    [vy = 0]. *)
Theorem fall_from_203_snaps_up_to_183 (k : nat) (Hk : (1 <= k <= 10)%nat) :
  let d0 := mkDino 203 0 st_running in
  let d1 := mkDino 163 0 st_running in
  let dt := 1 # 60 in
  let landed := mkDino (App1.groundPosition st_running) 0 st_running in
  (GRAVITY == 1800 /\ GROUND_Y == 230 /\
   cfg_height DINO_RUNNING_DIMENSIONS == 47 /\
   App1.groundPosition st_running == 183) /\
  App1.groundPosition (status d0) < y d0 /\
  fall k dt d0 = landed /\ fall2 k dt d0 = landed /\
  y (fall k dt d0) == 183 /\ vy (fall k dt d0) == 0 /\
  y (fall 1 dt d0) < y d0 /\
  y (fall k dt d0) <= y (fall (k - 1) dt d0) /\
  y (fall k dt d0) <= App1.groundPosition (status d0) /\
  (forall j, (j < 8)%nat ->
     y (fall j dt d1) < y (fall (S j) dt d1) /\
     y (fall (S j) dt d1) < App1.groundPosition (status d1)) /\
  fall 9 dt d1 = landed /\ fall 10 dt d1 = landed /\
  fall2 9 dt d1 = landed.
Proof.
  cbv zeta. destruct k as [|k]; [lia|].
  split; [repeat split; reflexivity|].
  split; [reflexivity|].
  split; [apply fall_from_203_lands|].
  split; [rewrite fall2_fall; apply fall_from_203_lands|].
  rewrite (fall_from_203_lands k).
  split; [reflexivity|]. split; [reflexivity|]. split; [reflexivity|].
  split.
  { replace (S k - 1)%nat with k by lia.
    destruct k as [|k]; [vm_compute; discriminate|].
    rewrite (fall_from_203_lands k). apply Qle_refl. }
  split; [apply Qle_refl|].
  split.
  { intros j Hj.
    do 8 (destruct j as [|j]; [split; vm_compute; reflexivity|]). lia. }
  split; [vm_compute; reflexivity|]. split; [vm_compute; reflexivity|].
  vm_compute. reflexivity.
Qed.

Lemma fall_from_203_snaps_up_to_183_witness :
  (1 <= 10 <= 10)%nat /\
  fall 10 (1 # 60) (mkDino 203 0 st_running)
  = mkDino (App1.groundPosition st_running) 0 st_running.
Proof.
  assert (H : (1 <= 10 <= 10)%nat) by lia.
  split; [exact H|].
  exact (proj1 (proj2 (proj2 (fall_from_203_snaps_up_to_183 10 H)))).
Defined.

Example fall_from_203_whole_ticks :
  let g := mkGame running (mkDino 203 0 st_running) [] 0 0 INITIAL_SPEED 1000 5 in
  let frames := repeat (mkFrame (1 # 60) (3 # 4) (1 # 2)) 10 in
  dino (runTicks g frames) = mkDino (GROUND_Y - 47) 0 st_running /\
  gameState (runTicks g frames) = running.
Proof. vm_compute. split; reflexivity. Qed.

Example fall_from_203_first_frame :
  stepDino (mkDino 203 0 st_running) (1 # 60) = mkDino (GROUND_Y - 47) 0 st_running.
Proof. reflexivity. Qed.

(** ** The two versions of the tick *)

Lemma App2_tick_eq (g : Game) (dt rT rI : Q) :
  App2.tick g dt rT rI =
    mkGame (if App2.detectsCollision g then gameOver else gameState g)
           (stepDino (dino g) dt)
           (fst (App1.worldStep g dt rT rI))
           (score g + speed g * dt / 10) (highScore g)
           (speed g + SPEED_INCREASE_RATE * dt)
           (lastTimeRef g) (snd (App1.worldStep g dt rT rI)).
Proof.
  unfold App2.tick, App1.worldStep. rewrite updateDino_stepDino.
  destruct (spawn _ _ _ _ _ _) as [newObstacles next]. reflexivity.
Qed.

(** The frame of 1/60 s after [aboutToCrash] (last frame at 1000 ms): the
    cactus moves from 95 to 90, under the player's right edge at 94.
    part_001 tests the moved cactus and ends the game without taking the
    updates; part_002 tests the cactus where it was, keeps running and takes
    the updates. *)
Lemma versions_differ_on_crash_frame :
  let time := 1000 + (1000 # 60) in
  let g1 := App1.gameLoop aboutToCrash time 0 0 in
  let g2 := App2.gameLoop aboutToCrash time 0 0 in
  gameState g1 = gameOver /\ gameState g2 = running /\
  score g1 == 120 /\ score g2 == 120 + (1 # 2) /\
  x (hd (mkObstacle 0 0 0 "") (obstacles g1)) == 95 /\
  x (hd (mkObstacle 0 0 0 "") (obstacles g2)) == 90 /\
  g1 <> g2.
Proof.
  cbv zeta. repeat split; try reflexivity.
  intro H. apply (f_equal gameState) in H. vm_compute in H. discriminate.
Qed.

Lemma gameLoop_versions_agree_core
    (g : Game) (time rT rI : Q) :
  let dt := (time - lastTimeRef g) / 1000 in
  let g1 := App1.gameLoop g time rT rI in
  let g2 := App2.gameLoop g time rT rI in
  lastTimeRef g1 = lastTimeRef g2 /\
  nextObstacleTimeRef g1 = nextObstacleTimeRef g2 /\
  (lastTimeRef g == 0 -> g1 = g2) /\
  (~ lastTimeRef g == 0 ->
     (gameState g1 = gameOver <->
      App1.detectsCollision g dt rT rI = true \/ gameState g = gameOver) /\
     (gameState g2 = gameOver <->
      App2.detectsCollision g = true \/ gameState g = gameOver)) /\
  (App1.detectsCollision g dt rT rI = false ->
   (dino g1, obstacles g1, score g1, speed g1, highScore g1)
   = (dino g2, obstacles g2, score g2, speed g2, highScore g2) /\
   (App2.detectsCollision g = false -> g1 = g2)).
Proof.
  cbv zeta. unfold App1.gameLoop, App2.gameLoop.
  set (started := mkGame (gameState g) (dino g) (obstacles g) (score g)
                         (highScore g) (speed g) time (nextObstacleTimeRef g)).
  set (dt := (time - lastTimeRef g) / 1000).
  assert (D1 : App1.detectsCollision started dt rT rI
               = App1.detectsCollision g dt rT rI) by reflexivity.
  assert (D2 : App2.detectsCollision started = App2.detectsCollision g)
    by reflexivity.
  destruct (Qeq_bool (lastTimeRef g) 0) eqn:E0.
  - apply Qeq_bool_iff in E0.
    repeat split; try reflexivity; intros; contradiction.
  - assert (Hne : ~ lastTimeRef g == 0).
    { intro H. apply Qeq_bool_iff in H. congruence. }
    rewrite App2_tick_eq.
    destruct (tick_cases started dt rT rI) as [[D E] | [D E]]; rewrite E;
      rewrite D1 in D; rewrite D2, D; simpl.
    + split; [reflexivity|]. split; [reflexivity|].
      split; [intro; contradiction|]. split; [|intro; discriminate].
      intros _. split; [tauto|].
      destruct (App2.detectsCollision g); split; intro H; auto;
        destruct H as [H|H]; auto; discriminate.
    + split; [reflexivity|]. split; [reflexivity|].
      split; [intro; contradiction|]. split.
      * intros _. split.
        { split; [auto | intros [H|H]; [discriminate | exact H]]. }
        destruct (App2.detectsCollision g); split; intro H; auto;
          destruct H as [H|H]; auto; discriminate.
      * intros _. split; [reflexivity|]. intros ->. reflexivity.
Qed.

(** C9 (amended). For the same previous state, frame time and random draws,
    the two versions of [gameLoop] always leave the same spawn countdown and
    the same last-frame time, and on the first frame after a reset the same
    state.  part_001 decides gameOver from the player and the obstacles as
    this frame moved them, part_002 from the ones of the previous state.  On
    every frame on which the test of part_001 finds no collision the two
    versions produce the same player, obstacles, score and speed; when the
    test of part_002 finds none either (so that both decide alike, against
    gameOver) the two successor states are equal.  When part_001 detects a
    collision it leaves player, obstacles, score and speed as they were;
    part_002 applies its updates to them on every frame. *)
Theorem gameLoop_versions_agree_without_collision
    (g : Game) (time rT rI : Q) :
  let dt := (time - lastTimeRef g) / 1000 in
  let g1 := App1.gameLoop g time rT rI in
  let g2 := App2.gameLoop g time rT rI in
  lastTimeRef g1 = lastTimeRef g2 /\
  nextObstacleTimeRef g1 = nextObstacleTimeRef g2 /\
  (lastTimeRef g == 0 -> g1 = g2) /\
  (~ lastTimeRef g == 0 ->
     (gameState g1 = gameOver <->
      App1.detectsCollision g dt rT rI = true \/ gameState g = gameOver) /\
     (gameState g2 = gameOver <->
      App2.detectsCollision g = true \/ gameState g = gameOver)) /\
  (App1.detectsCollision g dt rT rI = false ->
   (dino g1, obstacles g1, score g1, speed g1, highScore g1)
   = (dino g2, obstacles g2, score g2, speed g2, highScore g2) /\
   (App2.detectsCollision g = false -> g1 = g2)) /\
  (~ lastTimeRef g == 0 ->
   (App1.detectsCollision g dt rT rI = true ->
    (dino g1, obstacles g1, score g1, speed g1)
    = (dino g, obstacles g, score g, speed g)) /\
   (dino g2, obstacles g2, score g2, speed g2)
   = (App2.updateDino (dino g) (dino g) dt,
      fst (spawn (scrollObstacles (obstacles g) (speed g) dt)
                 (nextObstacleTimeRef g) (speed g) dt rT rI),
      score g + speed g * dt / 10,
      speed g + SPEED_INCREASE_RATE * dt)).
Proof.
  cbv zeta.
  pose proof (gameLoop_versions_agree_core g time rT rI) as H. cbv zeta in H.
  destruct H as (H1 & H2 & H3 & H4 & H5).
  split; [exact H1|]. split; [exact H2|]. split; [exact H3|].
  split; [exact H4|]. split; [exact H5|].
  intro Hne. unfold App1.gameLoop, App2.gameLoop.
  destruct (Qeq_bool (lastTimeRef g) 0) eqn:E0;
    [apply Qeq_bool_iff in E0; contradiction|].
  set (started := mkGame (gameState g) (dino g) (obstacles g) (score g)
                         (highScore g) (speed g) time (nextObstacleTimeRef g)).
  set (dt := (time - lastTimeRef g) / 1000).
  split.
  - intro D.
    destruct (tick_cases started dt rT rI) as [[_ E] | [D' _]].
    + rewrite E. reflexivity.
    + change (App1.detectsCollision started dt rT rI)
        with (App1.detectsCollision g dt rT rI) in D'. congruence.
  - rewrite App2_tick_eq, updateDino_stepDino. reflexivity.
Qed.

Lemma gameLoop_versions_agree_without_collision_witness :
  let g := mkGame running (mkDino (GROUND_Y - 47) 0 st_running)
                  [mkObstacle 400 25 50 "CACTUS_SMALL"] 10 0 INITIAL_SPEED 1000 5 in
  App1.detectsCollision g ((1016 - lastTimeRef g) / 1000) 0 0 = false /\
  App2.detectsCollision g = false /\
  App1.gameLoop g 1016 0 0 = App2.gameLoop g 1016 0 0.
Proof.
  cbv zeta.
  set (g := mkGame running (mkDino (GROUND_Y - 47) 0 st_running)
                   [mkObstacle 400 25 50 "CACTUS_SMALL"] 10 0 INITIAL_SPEED 1000 5).
  assert (H1 : App1.detectsCollision g ((1016 - lastTimeRef g) / 1000) 0 0 = false)
    by reflexivity.
  assert (H2 : App2.detectsCollision g = false) by reflexivity.
  split; [exact H1|]. split; [exact H2|].
  exact (proj2 (proj1 (proj2 (proj2 (proj2 (proj2
           (gameLoop_versions_agree_without_collision g 1016 0 0))))) H1) H2).
Defined.

(** ** The frame that ends the game *)

(** The frame that detects the collision has already counted the spawn
    countdown down (here from 500 ms by 1000/60 ms), and [gameLoop] has
    already stored the frame's time. *)
Lemma crash_frame_changes_refs :
  let time := 1000 + (1000 # 60) in
  App1.detectsCollision aboutToCrash (1 # 60) 0 0 = true /\
  gameState (App1.tick aboutToCrash (1 # 60) 0 0) = gameOver /\
  nextObstacleTimeRef aboutToCrash == 500 /\
  nextObstacleTimeRef (App1.tick aboutToCrash (1 # 60) 0 0) == 500 - (1000 # 60) /\
  ~ (nextObstacleTimeRef (App1.tick aboutToCrash (1 # 60) 0 0)
     == nextObstacleTimeRef aboutToCrash) /\
  gameState (App1.gameLoop aboutToCrash time 0 0) = gameOver /\
  ~ (lastTimeRef (App1.gameLoop aboutToCrash time 0 0)
     == lastTimeRef aboutToCrash) /\
  ~ (nextObstacleTimeRef (App1.gameLoop aboutToCrash time 0 0)
     == nextObstacleTimeRef aboutToCrash).
Proof.
  cbv zeta. repeat split; try reflexivity; intro H; vm_compute in H; discriminate.
Qed.

(** C10 (amended). In part_001 the tick that detects a collision sets
    gameOver and returns before the player, obstacle list, score and speed
    updates are applied: those fields, and the high score, keep their values
    from the previous tick.  The two refs have been written before the test:
    the spawn countdown is the one of the spawn sub-step (decremented by
    [dt*1000], or re-drawn when that is [<= 0]) and, in [gameLoop], the
    last-frame time is the time of this frame. *)
Theorem collision_tick_keeps_state_fields
    (g : Game) (dt rT rI : Q)
    (Hhit : App1.detectsCollision g dt rT rI = true) :
  let g' := App1.tick g dt rT rI in
  let countdown := nextObstacleTimeRef g - dt * 1000 in
  gameState g' = gameOver /\
  dino g' = dino g /\ obstacles g' = obstacles g /\
  score g' = score g /\ speed g' = speed g /\ highScore g' = highScore g /\
  lastTimeRef g' = lastTimeRef g /\
  (0 < countdown -> nextObstacleTimeRef g' = countdown) /\
  (countdown <= 0 ->
   nextObstacleTimeRef g'
   = random rI OBSTACLE_INTERVAL_MIN OBSTACLE_INTERVAL_MAX
       / (speed g / INITIAL_SPEED)) /\
  (forall time, ~ lastTimeRef g == 0 -> dt = (time - lastTimeRef g) / 1000 ->
     App1.gameLoop g time rT rI
     = mkGame gameOver (dino g) (obstacles g) (score g) (highScore g) (speed g)
              time (nextObstacleTimeRef g')).
Proof.
  cbv zeta.
  destruct (tick_cases g dt rT rI) as [[_ E] | [D _]]; [|congruence].
  rewrite E. cbn [gameState dino obstacles score speed highScore lastTimeRef
                  nextObstacleTimeRef].
  do 7 (split; [reflexivity|]).
  unfold App1.worldStep.
  destruct (spawn_cases (scrollObstacles (obstacles g) (speed g) dt)
              (nextObstacleTimeRef g) (speed g) dt rT rI) as [[Hc Es] | [Hc Es]];
    rewrite Es; cbn [snd].
  - split; [intro; lra|]. split; [reflexivity|].
    intros time Hne ->. unfold App1.gameLoop.
    destruct (Qeq_bool (lastTimeRef g) 0) eqn:E0;
      [apply Qeq_bool_iff in E0; contradiction|].
    set (started := mkGame _ _ _ _ _ _ time _).
    destruct (tick_cases started ((time - lastTimeRef g) / 1000) rT rI)
      as [[_ E'] | [D' _]].
    + rewrite E'. unfold App1.worldStep. cbn [obstacles speed nextObstacleTimeRef started].
      rewrite Es. reflexivity.
    + change (App1.detectsCollision started ((time - lastTimeRef g) / 1000) rT rI)
        with (App1.detectsCollision g ((time - lastTimeRef g) / 1000) rT rI) in D'.
      congruence.
  - split; [reflexivity|]. split; [intro; lra|].
    intros time Hne ->. unfold App1.gameLoop.
    destruct (Qeq_bool (lastTimeRef g) 0) eqn:E0;
      [apply Qeq_bool_iff in E0; contradiction|].
    set (started := mkGame _ _ _ _ _ _ time _).
    destruct (tick_cases started ((time - lastTimeRef g) / 1000) rT rI)
      as [[_ E'] | [D' _]].
    + rewrite E'. unfold App1.worldStep. cbn [obstacles speed nextObstacleTimeRef started].
      rewrite Es. reflexivity.
    + change (App1.detectsCollision started ((time - lastTimeRef g) / 1000) rT rI)
        with (App1.detectsCollision g ((time - lastTimeRef g) / 1000) rT rI) in D'.
      congruence.
Qed.

Lemma collision_tick_keeps_state_fields_witness :
  App1.detectsCollision aboutToCrash (1 # 60) 0 0 = true /\
  score (App1.tick aboutToCrash (1 # 60) 0 0) = score aboutToCrash.
Proof.
  assert (H : App1.detectsCollision aboutToCrash (1 # 60) 0 0 = true) by reflexivity.
  split; [exact H|].
  exact (proj1 (proj2 (proj2 (proj2
           (collision_tick_keeps_state_fields aboutToCrash (1 # 60) 0 0 H))))).
Defined.

(** * Further properties of the component *)

(** ** Reading the high score back *)

Lemma digitValue_plain (c : ascii) (v : Z) :
  digitValue c = Some v ->
  (forall rest, whiteSpaceLength (String c rest) = 0%nat) /\
  Ascii.eqb c "-" = false /\ Ascii.eqb c "+" = false.
Proof.
  destruct c as [[] [] [] [] [] [] [] []]; vm_compute; intro H;
    try discriminate H; repeat split.
Qed.

Lemma skipWhiteSpace_none (c : ascii) (rest : string) :
  whiteSpaceLength (String c rest) = 0%nat ->
  skipWhiteSpace (String c rest) = String c rest.
Proof.
  intro H. unfold skipWhiteSpace. cbn [String.length skipWhiteSpaceFuel].
  rewrite H. reflexivity.
Qed.

Lemma parseDigits_acc (d : Decimal.uint) (acc : positive) :
  parseDigits (NilEmpty.string_of_uint d) (Some (Z.pos acc))
  = Some (Z.pos (Pos.of_uint_acc d acc)).
Proof.
  revert acc. induction d; intro acc; cbn [NilEmpty.string_of_uint Pos.of_uint_acc];
    [reflexivity | ..];
    cbn [parseDigits]; match goal with
    | |- context [digitValue ?c] =>
        let v := eval vm_compute in (digitValue c) in
        change (digitValue c) with v; cbv iota
    end;
    rewrite <- IHd; f_equal; f_equal; lia.
Qed.

Lemma parseDigits_zero (d : Decimal.uint) :
  parseDigits (NilEmpty.string_of_uint d) (Some 0%Z)
  = Some (Z.of_N (Pos.of_uint d)).
Proof.
  induction d; cbn [NilEmpty.string_of_uint Pos.of_uint];
    [reflexivity | ..];
    cbn [parseDigits]; match goal with
    | |- context [digitValue ?c] =>
        let v := eval vm_compute in (digitValue c) in
        change (digitValue c) with v; cbv iota
    end;
    [exact IHd | ..]; cbn [Z.of_N]; rewrite <- parseDigits_acc; reflexivity.
Qed.

Lemma parseDigits_none (d : Decimal.uint) :
  d <> Decimal.Nil ->
  parseDigits (NilEmpty.string_of_uint d) None
  = parseDigits (NilEmpty.string_of_uint d) (Some 0%Z).
Proof.
  destruct d; intro H; [contradiction | ..]; reflexivity.
Qed.

Lemma string_of_uint_head (d : Decimal.uint) :
  d <> Decimal.Nil ->
  exists c rest v,
    NilEmpty.string_of_uint d = String c rest /\ digitValue c = Some v.
Proof.
  destruct d; intro H; [contradiction | ..];
    cbn [NilEmpty.string_of_uint]; do 3 eexists; split; reflexivity.
Qed.

Lemma parseInt_digits (d : Decimal.uint) :
  d <> Decimal.Nil ->
  parseInt (NilEmpty.string_of_uint d) = Some (Z.of_N (Pos.of_uint d)) /\
  parseInt (String "-" (NilEmpty.string_of_uint d))
  = Some (- Z.of_N (Pos.of_uint d))%Z.
Proof.
  intro Hd.
  pose proof (parseDigits_none d Hd) as Hn. rewrite parseDigits_zero in Hn.
  destruct (string_of_uint_head d Hd) as (c & rest & v & E & Hc).
  destruct (digitValue_plain c v Hc) as (Hw & Hm & Hp).
  split.
  - unfold parseInt. rewrite E, (skipWhiteSpace_none c rest (Hw rest)), Hm, Hp.
    rewrite <- E. exact Hn.
  - unfold parseInt. rewrite skipWhiteSpace_none; [|reflexivity].
    change (Ascii.eqb "-" "-") with true. cbv iota.
    rewrite Hn. reflexivity.
Qed.

Lemma string_of_uint_nonnil (d : Decimal.uint) :
  d <> Decimal.Nil -> NilZero.string_of_uint d = NilEmpty.string_of_uint d.
Proof. destruct d; intro H; [contradiction | ..]; reflexivity. Qed.

Lemma toString_decimal (n : Z) :
  (Z.abs n < 10 ^ 21)%Z -> toString n = NilZero.string_of_int (Z.to_int n).
Proof.
  intro H. unfold toString. apply Z.ltb_lt in H. rewrite H. reflexivity.
Qed.

Lemma parseInt_toString (n : Z) :
  (Z.abs n < 10 ^ 21)%Z -> parseInt (toString n) = Some n.
Proof.
  intro Hb. rewrite (toString_decimal n Hb).
  destruct n as [|p|p]; [reflexivity | |];
    cbn [Z.to_int NilZero.string_of_int];
    pose proof (Unsigned.to_uint_nonnil p) as Hnil;
    rewrite (string_of_uint_nonnil _ Hnil).
  - rewrite (proj1 (parseInt_digits _ Hnil)), Unsigned.of_to. reflexivity.
  - rewrite (proj2 (parseInt_digits _ Hnil)), Unsigned.of_to. reflexivity.
Qed.

Lemma toString_nonempty (n : Z) :
  (Z.abs n < 10 ^ 21)%Z -> String.eqb (toString n) "" = false.
Proof.
  intro Hb. destruct (String.eqb (toString n) "") eqn:E; [|reflexivity].
  apply String.eqb_eq in E. pose proof (parseInt_toString n Hb) as H.
  rewrite E in H. discriminate H.
Qed.

Lemma loadHighScore_after_record (start : Game) (n : Z) (ls : Storage) :
  (Z.abs n < 10 ^ 21)%Z ->
  highScore (loadHighScore start (setItem "dinoHighScore" (toString n) ls))
  = inject_Z n.
Proof.
  intro Hb. unfold loadHighScore.
  rewrite getItem_setItem, (toString_nonempty n Hb), (parseInt_toString n Hb).
  cbn [highScore].
  destruct (n =? 0)%Z eqn:E; [|reflexivity].
  apply Z.eqb_eq in E. rewrite E. reflexivity.
Qed.

(** X2. A record below 10^21 that the game-over effect stores is the high
    score that the next start-up reads, whatever the game it starts from held
    before: the effect writes the decimal digits of [floor(score)], and
    [parseInt] reads the decimal digits of every integer below 10^21 in
    absolute value back as that integer.  From 10^21 on [toString] writes the
    exponent form, of which [parseInt] reads the digits before the point
    only: 10^21 is stored as ["1e+21"] and read as 1. *)
Theorem stored_record_is_read_back (g start : Game) (ls : Storage)
    (Hover : gameState g = gameOver)
    (Hrecord : highScore g < inject_Z (Qfloor (score g)))
    (Hlimit : (Z.abs (Qfloor (score g)) < 10 ^ 21)%Z) :
  highScore (loadHighScore start (snd (gameStateEffect g ls)))
  = inject_Z (Qfloor (score g)) /\
  highScore (loadHighScore start (snd (gameStateEffect g ls)))
  = highScore (fst (gameStateEffect g ls)) /\
  (forall n : Z, (Z.abs n < 10 ^ 21)%Z -> parseInt (toString n) = Some n) /\
  toString (10 ^ 21) = "1e+21"%string /\ parseInt "1e+21" = Some 1%Z.
Proof.
  assert (Hload := loadHighScore_after_record start (Qfloor (score g)) ls Hlimit).
  unfold gameStateEffect. rewrite Hover.
  apply Qlt_bool_iff in Hrecord. rewrite Hrecord. cbn [fst snd highScore].
  split; [exact Hload|]. split; [exact Hload|].
  split; [exact parseInt_toString|]. split; vm_compute; reflexivity.
Qed.

Lemma stored_record_is_read_back_witness :
  gameState crashed = gameOver /\
  highScore crashed < inject_Z (Qfloor (score crashed)) /\
  (Z.abs (Qfloor (score crashed)) < 10 ^ 21)%Z /\
  highScore (loadHighScore initialGame (snd (gameStateEffect crashed [])))
  = inject_Z (Qfloor (score crashed)).
Proof.
  assert (Hover : gameState crashed = gameOver) by reflexivity.
  assert (Hrec : highScore crashed < inject_Z (Qfloor (score crashed)))
    by reflexivity.
  assert (Hlim : (Z.abs (Qfloor (score crashed)) < 10 ^ 21)%Z)
    by (vm_compute; reflexivity).
  split; [exact Hover|]. split; [exact Hrec|]. split; [exact Hlim|].
  exact (proj1 (stored_record_is_read_back crashed initialGame [] Hover Hrec Hlim)).
Defined.

Example parseInt_reads_prefix :
  parseInt "  42px" = Some 42%Z /\ parseInt "-7" = Some (-7)%Z /\
  parseInt "px42" = None /\ parseInt "" = None /\ parseInt "-" = None /\
  parseInt (String (ascii_of_nat 194) (String (ascii_of_nat 160) "42"))
  = Some 42%Z.
Proof. repeat split. Qed.

Example toString_forms :
  toString 120 = "120"%string /\ toString (-45) = "-45"%string /\
  toString (10 ^ 21 - 1) = "999999999999999999999"%string /\
  toString (- (123 * 10 ^ 20)) = "-1.23e+22"%string.
Proof. repeat split; vm_compute; reflexivity. Qed.

(** ** The score sound *)

(** X3. The score sound is never played below 100 points; the recorded
    milestone never goes down and, once it is not negative, is the larger of
    the old record and [floor(score/100)]; and after the effect has run, a
    run for the same score or for any score in the same or a lower hundred
    plays nothing: one sound per hundred reached. *)
Theorem score_sound_once_per_hundred (score : Q) (last : Z) :
  let played := fst (scoreMilestoneEffect score last) in
  let last' := snd (scoreMilestoneEffect score last) in
  (score < 100 -> played = false) /\
  (last <= last')%Z /\
  (0 <= last -> last' = Z.max last (Qfloor (score / 100)))%Z /\
  (forall score2,
     (Qfloor (score2 / 100) <= Qfloor (score / 100))%Z ->
     scoreMilestoneEffect score2 last' = (false, last')).
Proof.
  cbv zeta. unfold scoreMilestoneEffect.
  set (cur := Qfloor (score / 100)).
  split; [|split; [|split]].
  - intro Hlt.
    assert (Hc : (cur <= 0)%Z).
    { assert (H1 : score / 100 < 1).
      { apply Qlt_shift_div_r; [reflexivity | lra]. }
      pose proof (Qfloor_le (score / 100)) as H2. fold cur in H2.
      assert (H3 : inject_Z cur < inject_Z 1) by (change (inject_Z 1) with 1; lra).
      rewrite <- Zlt_Qlt in H3. lia. }
    destruct (0 <? cur)%Z eqn:E; [apply Z.ltb_lt in E; lia | reflexivity].
  - destruct (0 <? cur)%Z eqn:E0, (last <? cur)%Z eqn:E1; cbn [andb snd];
      try apply Z.ltb_lt in E1; lia.
  - intro Hl.
    destruct (0 <? cur)%Z eqn:E0, (last <? cur)%Z eqn:E1; cbn [andb snd];
      try apply Z.ltb_lt in E0; try apply Z.ltb_lt in E1;
      try apply Z.ltb_ge in E0; try apply Z.ltb_ge in E1; lia.
  - intros score2 Hle. set (cur2 := Qfloor (score2 / 100)) in *.
    destruct (0 <? cur)%Z eqn:E0, (last <? cur)%Z eqn:E1; cbn [andb snd];
      try apply Z.ltb_lt in E0; try apply Z.ltb_lt in E1;
      try apply Z.ltb_ge in E0; try apply Z.ltb_ge in E1;
      destruct (0 <? cur2)%Z eqn:F0; cbn [andb]; try reflexivity;
      apply Z.ltb_lt in F0;
      match goal with
      | |- (if (?a <? ?b)%Z then _ else _) = _ =>
          destruct (a <? b)%Z eqn:F1; [apply Z.ltb_lt in F1; lia | reflexivity]
      end.
Qed.

Lemma score_sound_once_per_hundred_witness :
  50 < 100 /\ fst (scoreMilestoneEffect 50 0) = false.
Proof.
  assert (H : 50 < 100) by reflexivity.
  split; [exact H|].
  exact (proj1 (score_sound_once_per_hundred 50 0) H).
Defined.

Example score_sound_at_250 :
  scoreMilestoneEffect 250 0 = (true, 2%Z) /\
  scoreMilestoneEffect 299 2 = (false, 2%Z) /\
  scoreMilestoneEffect 300 2 = (true, 3%Z).
Proof. repeat split. Qed.

(** ** Keys and touches *)

Lemma jump_keeps_y_status (d : DinosaurState) :
  y (App1.jump d) = y d /\ status (App1.jump d) = status d.
Proof.
  destruct (jump_cases d) as [[_ E] | [_ E]]; rewrite E; split; reflexivity.
Qed.

Lemma jump_idempotent (d : DinosaurState) : App1.jump (App1.jump d) = App1.jump d.
Proof.
  destruct (jump_cases d) as [[H E] | [H E]]; rewrite E.
  - destruct (jump_cases (mkDino (y d) (- JUMP_FORCE) (status d)))
      as [[_ E'] | [H' _]]; [exact E' | simpl in H'; lra].
  - exact E.
Qed.

(** X4. Holding and releasing ArrowDown while the game runs leaves position
    and velocity alone and ends with status [running]; a player that was
    running is back exactly where it was, in both versions.  While the game
    is not running the pair of key events does nothing. *)
Theorem duck_press_and_release (g : Game) (r : Q) :
  let released1 := handleKeyUp (handleKeyDown1 g "ArrowDown" r) "ArrowDown" in
  let released2 := handleKeyUp (handleKeyDown2 g "ArrowDown" r) "ArrowDown" in
  released2 = released1 /\
  (gameState g = running ->
     status (dino (handleKeyDown1 g "ArrowDown" r)) = st_ducking /\
     released1
     = mkGame running (mkDino (y (dino g)) (vy (dino g)) st_running)
              (obstacles g) (score g) (highScore g) (speed g) (lastTimeRef g)
              (nextObstacleTimeRef g) /\
     (status (dino g) = st_running -> released1 = g)) /\
  (gameState g <> running -> released1 = g).
Proof.
  cbv zeta. unfold handleKeyUp, handleKeyDown1, handleKeyDown2.
  change (isConfirm "ArrowDown") with false.
  change (String.eqb "ArrowDown" "ArrowDown") with true.
  destruct g as [gs [dy dvy ds] obs sc hs sp lt nt]; cbn.
  destruct gs; (split; [reflexivity|]); split; intro H;
    try discriminate H; try (exfalso; apply H; reflexivity);
    try reflexivity.
  split; [reflexivity|]. split; [reflexivity|]. intros ->. reflexivity.
Qed.

Lemma duck_press_and_release_witness :
  gameState afterDuckRelease = running /\
  status (dino (handleKeyDown1 afterDuckRelease "ArrowDown" 0)) = st_ducking.
Proof.
  assert (H : gameState afterDuckRelease = running) by reflexivity.
  split; [exact H|].
  exact (proj1 (proj1 (proj2 (duck_press_and_release afterDuckRelease 0)) H)).
Defined.

(** X5. While the game runs, no key and no touch moves the player, changes
    the obstacles, the score, the speed, the high score, the mode or the two
    refs: a key can only set the vertical velocity (jump) or the status
    (duck).  Pressing jump again before the next frame changes nothing
    more. *)
Theorem running_inputs_touch_only_vy_and_status
    (g : Game) (code : string) (r : Q) (Hrun : gameState g = running) :
  let unchanged (g' : Game) :=
    (gameState g', y (dino g'), obstacles g', score g', highScore g',
     speed g', lastTimeRef g', nextObstacleTimeRef g')
    = (running, y (dino g), obstacles g, score g, highScore g, speed g,
       lastTimeRef g, nextObstacleTimeRef g) in
  unchanged (handleKeyDown1 g code r) /\
  unchanged (handleKeyDown2 g code r) /\
  unchanged (handleKeyUp g code) /\
  unchanged (handleTouchStart g r) /\
  vy (dino (handleKeyUp g code)) = vy (dino g) /\
  (isConfirm code = false ->
   vy (dino (handleKeyDown1 g code r)) = vy (dino g)) /\
  (isConfirm code = true ->
   status (dino (handleKeyDown1 g code r)) = status (dino g) /\
   handleKeyDown1 (handleKeyDown1 g code r) code r = handleKeyDown1 g code r) /\
  handleTouchStart (handleTouchStart g r) r = handleTouchStart g r.
Proof.
  cbv zeta.
  destruct g as [gs d obs sc hs sp lt nt]. cbn in Hrun. subst gs.
  unfold handleKeyDown1, handleKeyDown2, handleKeyUp, handleTouchStart.
  cbn [gameState dino obstacles score highScore speed lastTimeRef
       nextObstacleTimeRef].
  rewrite jump_versions.
  destruct (jump_keeps_y_status d) as [Hy Hs].
  destruct (isConfirm code) eqn:Ec, (String.eqb code "ArrowDown") eqn:Ed;
    cbn [gameState dino obstacles score highScore speed lastTimeRef
         nextObstacleTimeRef y vy status];
    rewrite ?Ec, ?Ed, ?jump_idempotent, ?Hy, ?Hs;
    repeat split; try reflexivity; try congruence; intro H; discriminate H.
Qed.

Lemma running_inputs_touch_only_vy_and_status_witness :
  gameState afterDuckRelease = running /\
  handleTouchStart (handleTouchStart afterDuckRelease 0) 0
  = handleTouchStart afterDuckRelease 0.
Proof.
  assert (H : gameState afterDuckRelease = running) by reflexivity.
  split; [exact H|].
  exact (proj2 (proj2 (proj2 (proj2 (proj2 (proj2 (proj2
           (running_inputs_touch_only_vy_and_status afterDuckRelease "Space" 0 H)))))))).
Defined.

(** X6. The keyboard handling of the two versions is the same function: for
    every state, key and draw [handleKeyDown] of part_002 returns what
    [handleKeyDown] of part_001 returns.  A touch (part_001) acts as the
    Space key, and any key other than Space, ArrowUp and ArrowDown is
    ignored in every mode. *)
Theorem key_handlers_versions_agree (g : Game) (code : string) (r : Q) :
  handleKeyDown2 g code r = handleKeyDown1 g code r /\
  handleTouchStart g r = handleKeyDown1 g "Space" r /\
  handleKeyDown1 g "ArrowUp" r = handleKeyDown1 g "Space" r /\
  (isConfirm code = false -> String.eqb code "ArrowDown" = false ->
   handleKeyDown1 g code r = g /\ handleKeyUp g code = g).
Proof.
  unfold handleKeyDown2, handleKeyDown1, handleTouchStart, handleKeyUp.
  rewrite jump_versions.
  change (isConfirm "Space") with true. change (isConfirm "ArrowUp") with true.
  split; [reflexivity|]. split; [destruct (gameState g); reflexivity|].
  split; [reflexivity|].
  intros Hc Hd. rewrite Hc, Hd. split; destruct (gameState g); reflexivity.
Qed.

Lemma key_handlers_versions_agree_witness :
  isConfirm "KeyA" = false /\ String.eqb "KeyA" "ArrowDown" = false /\
  handleKeyDown1 aboutToCrash "KeyA" 0 = aboutToCrash.
Proof.
  split; [reflexivity|]. split; [reflexivity|].
  exact (proj1 (proj2 (proj2 (proj2
           (key_handlers_versions_agree aboutToCrash "KeyA" 0))) eq_refl eq_refl)).
Defined.

(** ** Reset and collision *)

Lemma kinematics_le_ground (d : DinosaurState) (dt : Q) :
  fst (App1.kinematics d dt) <= App1.groundPosition (status d).
Proof.
  destruct (kinematics_cases d dt) as [[H E] | [H E]]; cbv zeta in H, E;
    rewrite E; simpl; lra.
Qed.

Lemma groundPosition_below_GROUND_Y (s : DinosaurStatus) :
  App1.groundPosition s < GROUND_Y.
Proof. destruct s; reflexivity. Qed.

Lemma collides_far_right (a : Hitbox) (o : Obstacle) :
  hx a + hw a <= x o -> collides a (obstacleHitbox o) = false.
Proof.
  intro H. destruct (collides a (obstacleHitbox o)) eqn:E; [|reflexivity].
  apply collides_iff in E. destruct E as (_ & E & _). simpl in E. lra.
Qed.

(** X7. A reset depends on the previous game only through its high score,
    which it keeps; resetting twice with the same draw is resetting once; the
    fresh countdown lies in [MIN, MAX) for a draw of [Math.random()].  And the
    frame after a reset cannot end the game, whatever its length and draws:
    there is no obstacle yet, and one spawned in that frame stands at the
    right edge. *)
Theorem reset_is_fresh_and_safe (g g' : Game) (r dt rT rI : Q) :
  (highScore g' = highScore g -> resetGame g' r = resetGame g r) /\
  highScore (resetGame g r) = highScore g /\
  resetGame (resetGame g r) r = resetGame g r /\
  (0 <= r -> r < 1 ->
   OBSTACLE_INTERVAL_MIN <= nextObstacleTimeRef (resetGame g r) /\
   nextObstacleTimeRef (resetGame g r) < OBSTACLE_INTERVAL_MAX) /\
  App1.detectsCollision (resetGame g r) dt rT rI = false /\
  App2.detectsCollision (resetGame g r) = false /\
  gameState (App1.tick (resetGame g r) dt rT rI) = running /\
  gameState (App2.tick (resetGame g r) dt rT rI) = running.
Proof.
  assert (D1 : App1.detectsCollision (resetGame g r) dt rT rI = false).
  { unfold App1.detectsCollision, App1.worldStep.
    cbn [resetGame obstacles speed nextObstacleTimeRef dino status].
    change (scrollObstacles [] INITIAL_SPEED dt) with (@nil Obstacle).
    destruct (spawn_fst [] (random r OBSTACLE_INTERVAL_MIN OBSTACLE_INTERVAL_MAX)
                INITIAL_SPEED dt rT rI) as [E | E]; rewrite E.
    - reflexivity.
    - cbn [app hitsAny existsb]. rewrite collides_far_right; [reflexivity|].
      destruct (newObstacle_shape rT) as [Hx _]. rewrite Hx.
      cbn [hx hw App1.getDinoDimensions cfg_width DINO_RUNNING_DIMENSIONS].
      unfold GAME_WIDTH. lra. }
  split; [intro H; unfold resetGame; rewrite H; reflexivity|].
  split; [reflexivity|]. split; [reflexivity|].
  split; [intros H0 H1; cbn [resetGame nextObstacleTimeRef];
          apply random_range; [exact H0 | exact H1 | reflexivity]|].
  split; [exact D1|]. split; [reflexivity|]. split.
  - destruct (tick_cases (resetGame g r) dt rT rI) as [[D _] | [_ E]];
      [congruence | rewrite E; reflexivity].
  - rewrite App2_tick_eq. reflexivity.
Qed.

Lemma reset_is_fresh_and_safe_witness :
  0 <= 1 # 2 /\ 1 # 2 < 1 /\
  nextObstacleTimeRef (resetGame initialGame (1 # 2)) < OBSTACLE_INTERVAL_MAX.
Proof.
  assert (H0 : 0 <= 1 # 2) by (vm_compute; discriminate).
  assert (H1 : 1 # 2 < 1) by reflexivity.
  split; [exact H0|]. split; [exact H1|].
  exact (proj2 (proj1 (proj2 (proj2 (proj2
           (reset_is_fresh_and_safe initialGame initialGame (1 # 2) 0 0 0))))
           H0 H1)).
Defined.

(** X8. In part_001 a frame ends the game exactly when some obstacle of the
    frame's list overlaps the player's column ([x < 50 + width of the player]
    and [x + width > 50]) while the player's feet are below the obstacle's
    top ([y + height of the player > GROUND_Y - height of the obstacle]).
    The remaining comparison of the test, [y < GROUND_Y], never decides: the
    clamped height always satisfies it. *)
Theorem collision_is_overlap_below_top (g : Game) (dt rT rI : Q) :
  let dimensions := App1.getDinoDimensions (status (dino g)) in
  let newY := fst (App1.kinematics (dino g) dt) in
  newY < GROUND_Y /\
  (App1.detectsCollision g dt rT rI = true <->
   exists o, In o (fst (App1.worldStep g dt rT rI)) /\
     x o < 50 + cfg_width dimensions /\ 50 < x o + width o /\
     GROUND_Y - height o < newY + cfg_height dimensions).
Proof.
  cbv zeta.
  assert (Hy : fst (App1.kinematics (dino g) dt) < GROUND_Y).
  { pose proof (kinematics_le_ground (dino g) dt).
    pose proof (groundPosition_below_GROUND_Y (status (dino g))). lra. }
  split; [exact Hy|].
  unfold App1.detectsCollision, hitsAny. rewrite existsb_exists.
  split; intros (o & Hin & H); exists o; (split; [exact Hin|]).
  - apply collides_iff in H. cbn [hx hy hw hh obstacleHitbox] in H.
    destruct H as (H1 & H2 & _ & H4). repeat split; lra.
  - apply collides_iff. cbn [hx hy hw hh obstacleHitbox].
    destruct H as (H1 & H2 & H4). repeat split; lra.
Qed.

Lemma collision_is_overlap_below_top_witness :
  App1.detectsCollision aboutToCrash (1 # 60) 0 0 = true /\
  exists o, In o (fst (App1.worldStep aboutToCrash (1 # 60) 0 0)) /\
    x o < 50 + 44 /\ 50 < x o + width o /\
    GROUND_Y - height o
      < fst (App1.kinematics (dino aboutToCrash) (1 # 60)) + 47.
Proof.
  assert (H : App1.detectsCollision aboutToCrash (1 # 60) 0 0 = true)
    by reflexivity.
  split; [exact H|].
  exact (proj1 (proj2 (collision_is_overlap_below_top aboutToCrash (1 # 60) 0 0)) H).
Defined.

(** ** What a session keeps *)

Lemma scroll_wellPlaced (obs : list Obstacle) (speed dt : Q) :
  0 <= speed -> 0 <= dt ->
  Forall wellPlaced obs -> Forall wellPlaced (scrollObstacles obs speed dt).
Proof.
  intros Hs Hdt Hall. rewrite Forall_forall in *. intros o' Ho'.
  apply scrollObstacles_In in Ho'. destruct Ho' as [(o & Ho & ->) Hleft].
  destruct (Hall o Ho) as (Hcat & _ & Hright).
  pose proof (Qmult_le_0_compat _ _ Hs Hdt) as Hp.
  split; [exact Hcat|]. split; [exact Hleft|]. simpl. lra.
Qed.

Lemma newObstacle_wellPlaced (r : Q) :
  0 <= r -> r < 1 -> wellPlaced (newObstacle r).
Proof.
  intros H0 H1. destruct (Qlt_le_dec r (1 # 2)) as [Hlt | Hge].
  - rewrite (newObstacle_small r H0 Hlt). unfold wellPlaced. simpl.
    split; [auto|]. split; [reflexivity | apply Qle_refl].
  - rewrite (newObstacle_large r Hge H1). unfold wellPlaced. simpl.
    split; [auto|]. split; [reflexivity | apply Qle_refl].
Qed.

Lemma sorted_filter (p : Obstacle -> bool) (obs : list Obstacle) :
  sortedByX obs -> sortedByX (filter p obs).
Proof.
  unfold sortedByX. induction 1 as [|a l Hl IH Ha]; simpl.
  - constructor.
  - destruct (p a); [|exact IH]. constructor; [exact IH|].
    rewrite Forall_forall in *. intros b Hb. apply filter_In in Hb.
    apply Ha. tauto.
Qed.

Lemma sorted_move (speed dt : Q) (obs : list Obstacle) :
  sortedByX obs -> sortedByX (map (moveObstacle speed dt) obs).
Proof.
  unfold sortedByX. induction 1 as [|a l Hl IH Ha]; simpl.
  - constructor.
  - constructor; [exact IH|].
    rewrite Forall_forall in *. intros b Hb. apply in_map_iff in Hb.
    destruct Hb as (b0 & <- & Hb0). specialize (Ha b0 Hb0). simpl. lra.
Qed.

Lemma sorted_snoc (obs : list Obstacle) (o : Obstacle) :
  sortedByX obs -> Forall (fun a => x a <= x o) obs -> sortedByX (obs ++ [o]).
Proof.
  unfold sortedByX. induction 1 as [|a l Hl IH Ha]; intro Hall; simpl.
  - repeat constructor.
  - inversion Hall as [|? ? Hao Hlo]; subst.
    constructor; [apply IH; exact Hlo|].
    apply Forall_app. split; [exact Ha | repeat constructor; exact Hao].
Qed.

Lemma respawn_countdown_range (speed rI : Q) :
  INITIAL_SPEED <= speed -> 0 <= rI -> rI < 1 ->
  0 < random rI OBSTACLE_INTERVAL_MIN OBSTACLE_INTERVAL_MAX / (speed / INITIAL_SPEED) /\
  random rI OBSTACLE_INTERVAL_MIN OBSTACLE_INTERVAL_MAX / (speed / INITIAL_SPEED)
    < OBSTACLE_INTERVAL_MAX.
Proof.
  intros Hs H0 H1.
  destruct (random_range rI OBSTACLE_INTERVAL_MIN OBSTACLE_INTERVAL_MAX H0 H1 eq_refl)
    as [Hlo Hhi].
  set (interval := random rI OBSTACLE_INTERVAL_MIN OBSTACLE_INTERVAL_MAX) in *.
  unfold OBSTACLE_INTERVAL_MIN, OBSTACLE_INTERVAL_MAX, INITIAL_SPEED in *.
  assert (Hratio : 1 <= speed / 300).
  { apply Qle_shift_div_l; [reflexivity | lra]. }
  set (ratio := speed / 300) in *.
  split.
  - apply Qlt_shift_div_l; lra.
  - apply Qle_lt_trans with interval; [|exact Hhi].
    apply Qle_shift_div_r; [lra|].
    assert (Hp : 0 <= interval * (ratio - 1)) by (apply Qmult_le_0_compat; lra).
    assert (He : interval * (ratio - 1) == interval * ratio - interval) by ring.
    rewrite He in Hp. lra.
Qed.

Lemma worldStep_invariant (g : Game) (dt rT rI : Q) :
  sessionInvariant g -> 0 <= dt -> 0 <= rT -> rT < 1 -> 0 <= rI -> rI < 1 ->
  Forall wellPlaced (fst (App1.worldStep g dt rT rI)) /\
  sortedByX (fst (App1.worldStep g dt rT rI)) /\
  0 <= snd (App1.worldStep g dt rT rI) /\
  snd (App1.worldStep g dt rT rI) < OBSTACLE_INTERVAL_MAX.
Proof.
  intros (Hsp & _ & Hwp & Hso & _ & _ & Hn0 & Hn1) Hdt HT0 HT1 HI0 HI1.
  assert (Hs0 : 0 <= speed g) by (unfold INITIAL_SPEED in Hsp; lra).
  pose proof (scroll_wellPlaced _ _ _ Hs0 Hdt Hwp) as Hwp'.
  assert (Hso' : sortedByX (scrollObstacles (obstacles g) (speed g) dt)).
  { unfold scrollObstacles. apply sorted_filter, sorted_move, Hso. }
  unfold App1.worldStep.
  destruct (spawn_cases (scrollObstacles (obstacles g) (speed g) dt)
              (nextObstacleTimeRef g) (speed g) dt rT rI) as [[Hc E] | [Hc E]];
    rewrite E; cbn [fst snd].
  - pose proof (newObstacle_wellPlaced rT HT0 HT1) as Hnew.
    destruct (respawn_countdown_range (speed g) rI Hsp HI0 HI1) as [Hr0 Hr1].
    split; [apply Forall_app; split; [exact Hwp' | constructor; [exact Hnew | constructor]]|].
    split; [|split; [lra | exact Hr1]].
    apply sorted_snoc; [exact Hso'|].
    eapply Forall_impl; [|exact Hwp']. intros a (_ & _ & Ha).
    destruct (newObstacle_shape rT) as [Hx _]. rewrite Hx. exact Ha.
  - split; [exact Hwp'|]. split; [exact Hso'|]. split; [lra|].
    assert (0 <= dt * 1000) by (apply Qmult_le_0_compat; lra). lra.
Qed.

Lemma tick_invariant (g : Game) (dt rT rI : Q) :
  sessionInvariant g -> 0 <= dt -> 0 <= rT -> rT < 1 -> 0 <= rI -> rI < 1 ->
  sessionInvariant (App1.tick g dt rT rI).
Proof.
  intros Hinv Hdt HT0 HT1 HI0 HI1.
  destruct (worldStep_invariant g dt rT rI Hinv Hdt HT0 HT1 HI0 HI1)
    as (Hwp' & Hso' & Hn0' & Hn1').
  destruct Hinv as (Hsp & Hsc & Hwp & Hso & Hst & Hy & Hn0 & Hn1).
  destruct (tick_cases g dt rT rI) as [[_ E] | [_ E]]; rewrite E;
    unfold sessionInvariant;
    cbn [speed score obstacles dino nextObstacleTimeRef].
  - repeat split; assumption.
  - assert (Hs0 : 0 <= speed g) by (unfold INITIAL_SPEED in Hsp; lra).
    pose proof (Qmult_le_0_compat _ _ Hs0 Hdt) as Hp.
    assert (Hd : speed g * dt / 10 == (speed g * dt) * (1 # 10)) by field.
    split; [unfold SPEED_INCREASE_RATE; lra|].
    split; [rewrite Hd; lra|].
    split; [exact Hwp'|]. split; [exact Hso'|].
    split; [exact Hst|]. split; [|split; assumption].
    unfold stepDino. cbn [y].
    pose proof (kinematics_le_ground (dino g) dt) as Hk.
    assert (Hg : App1.groundPosition (status (dino g))
                 <= GROUND_Y - cfg_height DINO_DUCKING_DIMENSIONS)
      by (destruct (status (dino g)); vm_compute; discriminate).
    lra.
Qed.

Lemma resetGame_invariant (g : Game) (r : Q) :
  0 <= r -> r < 1 -> sessionInvariant (resetGame g r).
Proof.
  intros H0 H1.
  destruct (random_range r OBSTACLE_INTERVAL_MIN OBSTACLE_INTERVAL_MAX H0 H1 eq_refl)
    as [Hlo Hhi].
  unfold sessionInvariant, resetGame.
  cbn [speed score obstacles dino nextObstacleTimeRef status y].
  split; [apply Qle_refl|]. split; [apply Qle_refl|].
  split; [constructor|]. split; [constructor|].
  split; [discriminate|]. split; [vm_compute; discriminate|].
  split; [|exact Hhi].
  apply Qle_trans with OBSTACLE_INTERVAL_MIN; [vm_compute; discriminate | exact Hlo].
Qed.

Lemma applyInput_invariant (w : Game * Storage) (i : Input) :
  validInput i -> sessionInvariant (fst w) -> sessionInvariant (fst (applyInput w i)).
Proof.
  intros Hv Hinv. destruct i as [f | code r | code | r |]; cbn [applyInput fst].
  - destruct Hv as (Hdt & [HT0 HT1] & [HI0 HI1]). apply tick_invariant; assumption.
  - destruct Hv as [H0 H1]. unfold handleKeyDown1.
    pose proof (resetGame_invariant (fst w) r H0 H1) as Hreset.
    destruct (gameState (fst w)), (isConfirm code); try exact Hreset;
      try exact Hinv.
    + destruct Hinv as (Hsp & Hsc & Hwp & Hso & Hst & Hy & Hn).
      destruct (jump_keeps_y_status (dino (fst w))) as [Ey Es].
      unfold sessionInvariant.
      cbn [speed score obstacles dino nextObstacleTimeRef].
      rewrite Ey, Es. repeat split; try assumption; apply Hn.
    + destruct (String.eqb code "ArrowDown"); [|exact Hinv].
      destruct Hinv as (Hsp & Hsc & Hwp & Hso & Hst & Hy & Hn).
      unfold sessionInvariant.
      cbn [speed score obstacles dino nextObstacleTimeRef status y].
      repeat split; try assumption; try discriminate; apply Hn.
  - unfold handleKeyUp.
    destruct (gameState (fst w)); try exact Hinv.
    destruct (String.eqb code "ArrowDown"); [|exact Hinv].
    destruct Hinv as (Hsp & Hsc & Hwp & Hso & Hst & Hy & Hn).
    unfold sessionInvariant.
    cbn [speed score obstacles dino nextObstacleTimeRef status y].
    repeat split; try assumption; try discriminate; apply Hn.
  - destruct Hv as [H0 H1]. unfold handleTouchStart.
    pose proof (resetGame_invariant (fst w) r H0 H1) as Hreset.
    destruct (gameState (fst w)); try exact Hreset.
    destruct Hinv as (Hsp & Hsc & Hwp & Hso & Hst & Hy & Hn).
    destruct (jump_keeps_y_status (dino (fst w))) as [Ey Es].
    unfold sessionInvariant.
    cbn [speed score obstacles dino nextObstacleTimeRef].
    rewrite Ey, Es. repeat split; try assumption; apply Hn.
  - unfold gameStateEffect.
    destruct (gameState (fst w)); try exact Hinv.
    destruct (Qlt_bool _ _); exact Hinv.
Qed.

Lemma play_invariant (inputs : list Input) (w : Game * Storage) :
  Forall validInput inputs -> sessionInvariant (fst w) ->
  sessionInvariant (fst (play w inputs)).
Proof.
  revert w. induction inputs as [|i inputs IH]; intros w Hall Hinv.
  - exact Hinv.
  - inversion Hall as [|? ? Hi Hrest]; subst. cbn [play fold_left].
    apply (IH (applyInput w i) Hrest). apply applyInput_invariant; assumption.
Qed.

Lemma start_invariant (ls : Storage) :
  sessionInvariant (loadHighScore initialGame ls).
Proof.
  assert (H : sessionInvariant initialGame).
  { unfold sessionInvariant, initialGame.
    cbn [speed score obstacles dino nextObstacleTimeRef status y].
    repeat split; try apply Qle_refl; try constructor; try discriminate;
      vm_compute; discriminate. }
  unfold loadHighScore. destruct (getItem _ ls) as [s|]; [|exact H].
  destruct (String.eqb s ""); exact H.
Qed.

Lemma crashSession_valid : Forall validInput crashSession.
Proof.
  unfold crashSession. cbn [app repeat].
  repeat (constructor;
          [cbn [validInput frameDt frameType frameInterval];
           repeat split; solve [exact I | reflexivity | vm_compute; discriminate]|]).
  constructor.
Qed.

Lemma sampleSession_valid : Forall validInput sampleSession.
Proof.
  unfold sampleSession.
  repeat (constructor;
          [cbn [validInput frameDt frameType frameInterval];
           repeat split; solve [exact I | reflexivity | vm_compute; discriminate]|]).
  constructor.
Qed.


(** X9. Throughout a session of part_001 (the component as started from any
    store, then any frames with [dt >= 0], keys, touches and effect runs in
    any order, with draws in [[0,1)]), every obstacle of the list is of a
    catalog type with that type's width and height, is not wholly past the
    left edge ([x > -width]) and is not right of the spawn point
    ([x <= GAME_WIDTH]). *)
Theorem session_obstacles_well_placed
    (ls : Storage) (inputs : list Input) (Hvalid : Forall validInput inputs) :
  Forall (fun o =>
            In (type o, mkConfig (width o) (height o)) OBSTACLE_CONFIGS /\
            - width o < x o /\ x o <= GAME_WIDTH)
         (obstacles (fst (play (loadHighScore initialGame ls, ls) inputs))).
Proof.
  apply (play_invariant inputs (loadHighScore initialGame ls, ls) Hvalid).
  apply start_invariant.
Qed.

Lemma session_obstacles_well_placed_witness :
  Forall validInput crashSession /\
  List.length (obstacles (fst (play (loadHighScore initialGame [], []) crashSession)))
  = 2%nat /\
  Forall (fun o =>
            In (type o, mkConfig (width o) (height o)) OBSTACLE_CONFIGS /\
            - width o < x o /\ x o <= GAME_WIDTH)
         (obstacles (fst (play (loadHighScore initialGame [], []) crashSession))).
Proof.
  split; [exact crashSession_valid|]. split; [vm_compute; reflexivity|].
  exact (session_obstacles_well_placed [] crashSession crashSession_valid).
Defined.

(** X10. Throughout such a session the obstacle list is ordered from left to
    right: an obstacle never stands left of one that precedes it in the list
    (spawn order is position order). *)
Theorem session_obstacles_left_to_right
    (ls : Storage) (inputs : list Input) (Hvalid : Forall validInput inputs) :
  StronglySorted (fun a b => x a <= x b)
    (obstacles (fst (play (loadHighScore initialGame ls, ls) inputs))).
Proof.
  apply (play_invariant inputs (loadHighScore initialGame ls, ls) Hvalid).
  apply start_invariant.
Qed.

Lemma session_obstacles_left_to_right_witness :
  Forall validInput crashSession /\
  map (fun o => Qred (x o))
      (obstacles (fst (play (loadHighScore initialGame [], []) crashSession)))
  = [164; 638] /\
  StronglySorted (fun a b => x a <= x b)
    (obstacles (fst (play (loadHighScore initialGame [], []) crashSession))).
Proof.
  split; [exact crashSession_valid|]. split; [vm_compute; reflexivity|].
  exact (session_obstacles_left_to_right [] crashSession crashSession_valid).
Defined.

(** X11. Throughout such a session the speed is at least [INITIAL_SPEED], so
    the divisor [speed / INITIAL_SPEED] of the respawn interval is at least 1
    and never zero; the score is not negative; and the spawn countdown stays
    in [[0, OBSTACLE_INTERVAL_MAX)]. *)
Theorem session_speed_and_countdown
    (ls : Storage) (inputs : list Input) (Hvalid : Forall validInput inputs) :
  let g := fst (play (loadHighScore initialGame ls, ls) inputs) in
  INITIAL_SPEED <= speed g /\ 1 <= speed g / INITIAL_SPEED /\
  ~ speed g / INITIAL_SPEED == 0 /\
  0 <= score g /\
  0 <= nextObstacleTimeRef g /\ nextObstacleTimeRef g < OBSTACLE_INTERVAL_MAX.
Proof.
  cbv zeta.
  destruct (play_invariant inputs (loadHighScore initialGame ls, ls) Hvalid
              (start_invariant ls)) as (Hsp & Hsc & _ & _ & _ & _ & Hn0 & Hn1).
  assert (Hr : 1 <= speed (fst (play (loadHighScore initialGame ls, ls) inputs))
                    / INITIAL_SPEED).
  { apply Qle_shift_div_l; [reflexivity|]. unfold INITIAL_SPEED in *. lra. }
  repeat split; try assumption. intro H. rewrite H in Hr. lra.
Qed.

Lemma session_speed_and_countdown_witness :
  Forall validInput sampleSession /\
  INITIAL_SPEED
  <= speed (fst (play (loadHighScore initialGame [], []) sampleSession)).
Proof.
  split; [exact sampleSession_valid|].
  exact (proj1 (session_speed_and_countdown [] sampleSession sampleSession_valid)).
Defined.

(** X12. Throughout such a session the player's status is never
    [jumping] (no code path sets it) and the player is never below the ground
    level of a ducking player ([y <= GROUND_Y - 30]). *)
Theorem session_player_status_and_depth
    (ls : Storage) (inputs : list Input) (Hvalid : Forall validInput inputs) :
  let g := fst (play (loadHighScore initialGame ls, ls) inputs) in
  status (dino g) <> st_jumping /\ y (dino g) <= GROUND_Y - 30.
Proof.
  cbv zeta.
  destruct (play_invariant inputs (loadHighScore initialGame ls, ls) Hvalid
              (start_invariant ls)) as (_ & _ & _ & _ & Hst & Hy & _).
  split; [exact Hst | exact Hy].
Qed.

Lemma session_player_status_and_depth_witness :
  Forall validInput sampleSession /\
  status (dino (fst (play (loadHighScore initialGame [], []) sampleSession)))
  <> st_jumping.
Proof.
  split; [exact sampleSession_valid|].
  exact (proj1 (session_player_status_and_depth [] sampleSession sampleSession_valid)).
Defined.

(** ** Modes *)

Lemma tick_gameState (g : Game) (dt rT rI : Q) :
  gameState (App1.tick g dt rT rI) = gameState g \/
  gameState (App1.tick g dt rT rI) = gameOver.
Proof.
  destruct (tick_cases g dt rT rI) as [[_ E] | [_ E]]; rewrite E; auto.
Qed.

Lemma applyInput_not_waiting (w : Game * Storage) (i : Input) :
  gameState (fst w) <> waiting -> gameState (fst (applyInput w i)) <> waiting.
Proof.
  intro H. destruct i as [f | code r | code | r |]; cbn [applyInput fst].
  - destruct (tick_gameState (fst w) (frameDt f) (frameType f) (frameInterval f))
      as [E | E]; rewrite E; [exact H | discriminate].
  - unfold handleKeyDown1.
    destruct (gameState (fst w)) eqn:E, (isConfirm code);
      try destruct (String.eqb code "ArrowDown"); cbn; rewrite ?E;
      try discriminate; congruence.
  - unfold handleKeyUp.
    destruct (gameState (fst w)) eqn:E;
      try destruct (String.eqb code "ArrowDown"); cbn; rewrite ?E;
      try discriminate; congruence.
  - unfold handleTouchStart.
    destruct (gameState (fst w)) eqn:E; cbn; try discriminate; congruence.
  - unfold gameStateEffect.
    destruct (gameState (fst w)) eqn:E; try destruct (Qlt_bool _ _); cbn;
      rewrite ?E; try discriminate; congruence.
Qed.

(** X13. The mode [waiting] is only the mode before the first game: once the
    game has left it, no frame, key, touch or effect run brings it back.  A
    frame leaves the mode as it is or sets [gameOver]; and in [gameOver] every
    input either leaves the mode [gameOver] or is a full reset. *)
Theorem waiting_is_never_reentered (w : Game * Storage) (inputs : list Input) :
  (gameState (fst w) <> waiting ->
   gameState (fst (play w inputs)) <> waiting) /\
  (forall dt rT rI,
     gameState (App1.tick (fst w) dt rT rI) = gameState (fst w) \/
     gameState (App1.tick (fst w) dt rT rI) = gameOver) /\
  (forall i, gameState (fst w) = gameOver ->
     gameState (fst (applyInput w i)) = gameOver \/
     exists r, fst (applyInput w i) = resetGame (fst w) r).
Proof.
  split; [|split].
  - revert w. induction inputs as [|i inputs IH]; intros w H; [exact H|].
    cbn [play fold_left]. apply (IH (applyInput w i)).
    apply applyInput_not_waiting. exact H.
  - intros dt rT rI. apply tick_gameState.
  - intros i Hover. destruct i as [f | code r | code | r |]; cbn [applyInput fst].
    + destruct (tick_gameState (fst w) (frameDt f) (frameType f) (frameInterval f))
        as [E | E]; rewrite E; auto.
    + unfold handleKeyDown1. rewrite Hover.
      destruct (isConfirm code);
        [right; exists r; reflexivity | left; first [exact Hover | reflexivity]].
    + unfold handleKeyUp. rewrite Hover. left. first [exact Hover | reflexivity].
    + unfold handleTouchStart. rewrite Hover. right. exists r. reflexivity.
    + unfold gameStateEffect. rewrite Hover.
      destruct (Qlt_bool _ _); left; cbn; first [exact Hover | reflexivity].
Qed.

Lemma waiting_is_never_reentered_witness :
  gameState (fst (aboutToCrash, @nil (string * string))) <> waiting /\
  gameState (fst (play (aboutToCrash, []) sampleSession)) <> waiting.
Proof.
  assert (H : gameState (fst (aboutToCrash, @nil (string * string))) <> waiting)
    by discriminate.
  split; [exact H|].
  exact (proj1 (waiting_is_never_reentered (aboutToCrash, []) sampleSession) H).
Defined.

(** ** The high score over a session *)

Lemma applyInput_highScore (w : Game * Storage) (i : Input) :
  (highScore (fst (applyInput w i)) = highScore (fst w) /\
   snd (applyInput w i) = snd w) \/
  (highScore (fst w) < inject_Z (Qfloor (score (fst w))) /\
   highScore (fst (applyInput w i)) = inject_Z (Qfloor (score (fst w))) /\
   snd (applyInput w i)
   = setItem "dinoHighScore" (toString (Qfloor (score (fst w)))) (snd w)).
Proof.
  destruct i as [f | code r | code | r |]; cbn [applyInput fst snd].
  - left. split; [|reflexivity].
    destruct (tick_cases (fst w) (frameDt f) (frameType f) (frameInterval f))
      as [[_ E] | [_ E]]; rewrite E; reflexivity.
  - left. split; [|reflexivity]. unfold handleKeyDown1.
    destruct (gameState (fst w)), (isConfirm code);
      try destruct (String.eqb code "ArrowDown"); reflexivity.
  - left. split; [|reflexivity]. unfold handleKeyUp.
    destruct (gameState (fst w)); try destruct (String.eqb code "ArrowDown");
      reflexivity.
  - left. split; [|reflexivity]. unfold handleTouchStart.
    destruct (gameState (fst w)); reflexivity.
  - unfold gameStateEffect. destruct (gameState (fst w)).
    + left. split; reflexivity.
    + left. split; reflexivity.
    + destruct (Qlt_bool _ _) eqn:E.
      * right. apply Qlt_bool_iff in E. split; [exact E|]. split; reflexivity.
      * left. split; reflexivity.
Qed.

(** X14. The stored high score and the one in memory stay the same number
    as long as the score stays below 10^21 (where [toString] leaves the
    decimal form): when the component has started from a store and then gone
    through any frames, keys, touches and effect runs, a new start from the
    store as it is then reads exactly the high score the game holds then. *)
Theorem high_score_survives_restart (ls0 : Storage) (inputs : list Input)
    (Hdecimal : scoreStaysDecimal (loadHighScore initialGame ls0, ls0) inputs) :
  let w := play (loadHighScore initialGame ls0, ls0) inputs in
  highScore (loadHighScore initialGame (snd w)) = highScore (fst w).
Proof.
  cbv zeta.
  assert (Hgen : forall ins w,
            scoreStaysDecimal w ins ->
            highScore (loadHighScore initialGame (snd w)) = highScore (fst w) ->
            highScore (loadHighScore initialGame (snd (play w ins)))
            = highScore (fst (play w ins))).
  { induction ins as [|i ins IH]; intros w Hd H; [exact H|].
    destruct Hd as [Hb Hd].
    cbn [play fold_left]. apply (IH (applyInput w i) Hd).
    destruct (applyInput_highScore w i) as [[Eh Es] | (_ & Eh & Es)];
      rewrite Eh, Es; [exact H | apply loadHighScore_after_record; exact Hb]. }
  apply (Hgen inputs _ Hdecimal). reflexivity.
Qed.

Lemma high_score_survives_restart_witness :
  scoreStaysDecimal (loadHighScore initialGame [], []) crashSession /\
  snd (play (loadHighScore initialGame [], []) crashSession)
  = [("dinoHighScore"%string, "109"%string)] /\
  highScore (loadHighScore initialGame
               (snd (play (loadHighScore initialGame [], []) crashSession)))
  = highScore (fst (play (loadHighScore initialGame [], []) crashSession)).
Proof.
  assert (H : scoreStaysDecimal (loadHighScore initialGame [], []) crashSession).
  { unfold crashSession. cbn [app repeat scoreStaysDecimal].
    repeat split; vm_compute; reflexivity. }
  split; [exact H|]. split; [vm_compute; reflexivity|].
  exact (high_score_survives_restart [] crashSession H).
Defined.

(** X15. The high score never goes down: over any frames, keys, touches and
    effect runs, from any state, it ends at least as high as it began; only
    the effect on [gameOver] changes it. *)
Theorem high_score_never_decreases (w : Game * Storage) (inputs : list Input) :
  highScore (fst w) <= highScore (fst (play w inputs)) /\
  (forall i, i <> InEffect ->
     highScore (fst (applyInput w i)) = highScore (fst w) /\
     snd (applyInput w i) = snd w).
Proof.
  split.
  - revert w. induction inputs as [|i inputs IH]; intro w; [apply Qle_refl|].
    change (play w (i :: inputs)) with (play (applyInput w i) inputs).
    specialize (IH (applyInput w i)).
    destruct (applyInput_highScore w i) as [[Eh _] | (Hlt & Eh & _)];
      rewrite Eh in IH; lra.
  - intros i Hi.
    destruct i as [f | code r | code | r |]; try (exfalso; apply Hi; reflexivity);
      destruct (applyInput_highScore w ltac:(first
        [exact (InFrame f) | exact (InKeyDown code r) | exact (InKeyUp code)
        | exact (InTouch r)])) as [H | (_ & _ & Es)]; try exact H;
      cbn [applyInput snd] in Es; exfalso;
      apply (f_equal (@List.length _)) in Es; cbn in Es; lia.
Qed.

Lemma high_score_never_decreases_witness :
  InTouch 0 <> InEffect /\
  highScore (fst (applyInput (crashed, []) (InTouch 0))) = highScore crashed.
Proof.
  assert (H : InTouch 0 <> InEffect) by discriminate.
  split; [exact H|].
  exact (proj1 (proj2 (high_score_never_decreases (crashed, []) []) (InTouch 0) H)).
Defined.

(** ** The first frame of an episode *)

(** X16. When the game is running, the effect clears the last-frame time, and
    the next call of [gameLoop] (either version) only records its time: no
    physics, no spawn, no draw is used.  The call after that runs the tick
    with [deltaTime = (time2 - time) / 1000].  The value 0 is the mark for
    'no frame yet': a first frame whose time is 0 is not recorded, and the
    call after it is again a first frame. *)
Theorem first_frame_only_records_time
    (g : Game) (ls : Storage) (time time2 rT rI rT2 rI2 : Q)
    (Hrun : gameState g = running) :
  let g0 := fst (gameStateEffect g ls) in
  let at_ t := mkGame (gameState g) (dino g) (obstacles g) (score g)
                      (highScore g) (speed g) t (nextObstacleTimeRef g) in
  snd (gameStateEffect g ls) = ls /\
  App1.gameLoop g0 time rT rI = at_ time /\
  App2.gameLoop g0 time rT rI = at_ time /\
  (~ time == 0 ->
   App1.gameLoop (App1.gameLoop g0 time rT rI) time2 rT2 rI2
   = App1.tick (at_ time2) ((time2 - time) / 1000) rT2 rI2 /\
   App2.gameLoop (App2.gameLoop g0 time rT rI) time2 rT2 rI2
   = App2.tick (at_ time2) ((time2 - time) / 1000) rT2 rI2) /\
  (time == 0 ->
   App1.gameLoop (App1.gameLoop g0 time rT rI) time2 rT2 rI2 = at_ time2 /\
   App2.gameLoop (App2.gameLoop g0 time rT rI) time2 rT2 rI2 = at_ time2).
Proof.
  cbv zeta. unfold gameStateEffect. rewrite Hrun. cbn [fst snd].
  unfold App1.gameLoop, App2.gameLoop.
  cbn [gameState dino obstacles score highScore speed lastTimeRef
       nextObstacleTimeRef].
  change (Qeq_bool 0 0) with true. cbv iota.
  cbn [gameState dino obstacles score highScore speed lastTimeRef
       nextObstacleTimeRef].
  split; [reflexivity|]. split; [reflexivity|]. split; [reflexivity|].
  split; intro H.
  - destruct (Qeq_bool time 0) eqn:E;
      [apply Qeq_bool_iff in E; contradiction | split; reflexivity].
  - apply Qeq_bool_iff in H. rewrite H. split; reflexivity.
Qed.

Lemma first_frame_only_records_time_witness :
  gameState aboutToCrash = running /\
  lastTimeRef (App1.gameLoop (fst (gameStateEffect aboutToCrash [])) 5000 0 0)
  = 5000.
Proof.
  assert (H : gameState aboutToCrash = running) by reflexivity.
  split; [exact H|].
  exact (f_equal lastTimeRef
           (proj1 (proj2 (first_frame_only_records_time
                            aboutToCrash [] 5000 5016 0 0 0 0 H)))).
Defined.

(** ** The collision test of part_002 *)

(** X17. part_002 tests the state it was called with, part_001 the state it
    is about to produce; so what part_001 detects in a frame is exactly what
    part_002 detects when called on the state its own tick produced: the
    earlier version reports every crash one frame later, and its frame in
    between has already moved the player, the obstacles and the score. *)
Theorem part_002_detects_one_frame_late (g : Game) (dt rT rI : Q) :
  App2.detectsCollision (App2.tick g dt rT rI)
  = App1.detectsCollision g dt rT rI /\
  (App1.detectsCollision g dt rT rI = true ->
   forall dt' rT' rI',
     gameState (App2.tick (App2.tick g dt rT rI) dt' rT' rI') = gameOver) /\
  (App1.detectsCollision g dt rT rI = true ->
   App2.detectsCollision g = false ->
   gameState (App1.tick g dt rT rI) = gameOver /\
   gameState (App2.tick g dt rT rI) = gameState g /\
   score (App2.tick g dt rT rI) = score g + speed g * dt / 10).
Proof.
  assert (E : App2.detectsCollision (App2.tick g dt rT rI)
              = App1.detectsCollision g dt rT rI).
  { rewrite App2_tick_eq.
    unfold App2.detectsCollision, App1.detectsCollision, App2.getDinoDimensions,
      stepDino.
    cbn [dino obstacles y status]. reflexivity. }
  split; [exact E|]. split.
  - intros H dt' rT' rI'. rewrite (App2_tick_eq (App2.tick g dt rT rI)).
    cbn [gameState]. rewrite E, H. reflexivity.
  - intros H1 H2.
    destruct (tick_cases g dt rT rI) as [[_ E1] | [D _]]; [|congruence].
    rewrite E1, App2_tick_eq, H2. repeat split.
Qed.

Lemma part_002_detects_one_frame_late_witness :
  App1.detectsCollision aboutToCrash (1 # 60) 0 0 = true /\
  gameState (App2.tick (App2.tick aboutToCrash (1 # 60) 0 0) (1 # 60) 0 0)
  = gameOver.
Proof.
  assert (H : App1.detectsCollision aboutToCrash (1 # 60) 0 0 = true)
    by reflexivity.
  split; [exact H|].
  exact (proj1 (proj2 (part_002_detects_one_frame_late aboutToCrash (1 # 60) 0 0))
           H (1 # 60) 0 0).
Defined.

(** ** The height of a jump *)

(** X18. After a jump from the ground (or from below it), with frames of any
    fixed length [dt >= 0] and no further input, the player never rises more
    than [JUMP_FORCE^2 / (2 * GRAVITY)] = 4225/36 (about 117.4) pixels above
    its ground level; so its top edge stays inside the game area
    ([y > 0]). *)
Theorem jump_height_bounded (d : DinosaurState) (dt : Q) (k : nat)
    (Hdt : 0 <= dt) (Hground : App1.groundPosition (status d) <= y d) :
  App1.groundPosition (status d) - JUMP_FORCE * JUMP_FORCE / (2 * GRAVITY)
    <= y (fall k dt (App1.jump d)) /\
  JUMP_FORCE * JUMP_FORCE / (2 * GRAVITY) == 4225 # 36 /\
  0 < y (fall k dt (App1.jump d)).
Proof.
  assert (Hc : JUMP_FORCE * JUMP_FORCE / (2 * GRAVITY) == 4225 # 36) by reflexivity.
  assert (Hmain : App1.groundPosition (status d) - (4225 # 36)
                  <= y (fall k dt (App1.jump d))).
  { destruct (jump_cases d) as [[_ E] | [H' _]]; [|lra]. rewrite E.
    set (d0 := mkDino (y d) (- JUMP_FORCE) (status d)).
    destruct (fall_flight dt d0 k) as [(j & Hj & Hland & _) | (_ & _ & Hy)].
    - change (status d0) with (status d) in Hland.
      replace k with ((k - j) + j)%nat by lia.
      destruct (fall_resting (k - j) j dt d0 Hdt) as [Hy _];
        [rewrite Hland; reflexivity | rewrite Hland; reflexivity |].
      change (status d0) with (status d) in Hy. rewrite Hy. lra.
    - rewrite Hy. cbn [y vy d0]. unfold JUMP_FORCE, GRAVITY.
      set (n := inject_Z (Z.of_nat k)).
      assert (Hn : 0 <= n).
      { unfold n. change 0 with (inject_Z 0). rewrite <- Zle_Qle. lia. }
      pose proof (Qmult_le_0_compat _ _ Hdt Hn) as Ht.
      pose proof (Qmult_le_0_compat _ _ Hdt Ht) as Hdtt.
      pose proof (square_nonneg (30 * (dt * n) - (65 # 6))) as Hsq.
      assert (Hexp : y d + dt * n * (- (650) + 1800 * dt * (n + 1) * (1 # 2))
                     == y d - (4225 # 36)
                        + (30 * (dt * n) - (65 # 6)) * (30 * (dt * n) - (65 # 6))
                        + 900 * (dt * (dt * n))) by ring.
      rewrite Hexp. lra. }
  split; [rewrite Hc; exact Hmain|]. split; [exact Hc|].
  assert (Hg : 183 <= App1.groundPosition (status d))
    by (destruct (status d); vm_compute; discriminate).
  lra.
Qed.

Lemma jump_height_bounded_witness :
  let d := mkDino (GROUND_Y - 47) 0 st_running in
  0 <= 1 # 60 /\ App1.groundPosition (status d) <= y d /\
  0 < y (fall 20 (1 # 60) (App1.jump d)).
Proof.
  cbv zeta.
  assert (H0 : 0 <= 1 # 60) by (vm_compute; discriminate).
  assert (H1 : App1.groundPosition (status (mkDino (GROUND_Y - 47) 0 st_running))
               <= y (mkDino (GROUND_Y - 47) 0 st_running))
    by (vm_compute; discriminate).
  split; [exact H0|]. split; [exact H1|].
  exact (proj2 (proj2 (jump_height_bounded (mkDino (GROUND_Y - 47) 0 st_running)
                         (1 # 60) 20 H0 H1))).
Defined.

(** ** The helper random *)

(** X19. For a draw [r] of [Math.random()] and bounds [min <= max],
    [random(min, max)] lies in [[min, max]], below [max] when [min < max]; it
    is [min] for the draw 0, and a larger draw never gives a smaller
    value. *)
Theorem random_between_bounds (r r' lo hi : Q)
    (H0 : 0 <= r) (H1 : r < 1) (Hlh : lo <= hi) :
  lo <= random r lo hi /\ random r lo hi <= hi /\
  (lo < hi -> random r lo hi < hi) /\
  random 0 lo hi == lo /\
  (r <= r' -> random r lo hi <= random r' lo hi).
Proof.
  unfold random.
  assert (Hd : 0 <= hi - lo) by lra.
  pose proof (Qmult_le_0_compat _ _ H0 Hd) as Hp.
  assert (Hq : 0 <= (1 - r) * (hi - lo)) by (apply Qmult_le_0_compat; lra).
  assert (Hr : (1 - r) * (hi - lo) == (hi - lo) - r * (hi - lo)) by ring.
  rewrite Hr in Hq.
  split; [lra|]. split; [lra|]. split; [|split].
  - intro Hlt.
    assert (Hq' : 0 < (1 - r) * (hi - lo)) by (apply Qmult_lt_0_compat; lra).
    rewrite Hr in Hq'. lra.
  - ring.
  - intro Hrr.
    assert (Hm : 0 <= (r' - r) * (hi - lo)) by (apply Qmult_le_0_compat; lra).
    assert (He : (r' - r) * (hi - lo) == r' * (hi - lo) - r * (hi - lo)) by ring.
    rewrite He in Hm. lra.
Qed.

Lemma random_between_bounds_witness :
  0 <= 1 # 4 /\ 1 # 4 < 1 /\ 700 <= 1800 /\ random (1 # 4) 700 1800 <= 1800.
Proof.
  assert (H0 : 0 <= 1 # 4) by (vm_compute; discriminate).
  assert (H1 : 1 # 4 < 1) by reflexivity.
  assert (H2 : 700 <= 1800) by (vm_compute; discriminate).
  split; [exact H0|]. split; [exact H1|]. split; [exact H2|].
  exact (proj1 (proj2 (random_between_bounds (1 # 4) (1 # 2) 700 1800 H0 H1 H2))).
Defined.

(** ** The drawn player *)

(** X20. Where the player is drawn: its lower edge is [20 + (groundY - y)]
    above the lower edge of the game area whenever it is on or above its
    ground level, so it stands on the ground line (20) exactly at ground
    level.  A ducking player is drawn on the ground line even when its [y] is
    below ground level; a player of any other status is then drawn below the
    ground line. *)
Theorem drawn_player_bottom (d : DinosaurState) :
  let ground := App1.groundPosition (status d) in
  (y d <= ground -> dinoBottom d == 20 + (ground - y d)) /\
  (status d = st_ducking -> 20 <= dinoBottom d) /\
  (status d <> st_ducking -> ground < y d -> dinoBottom d < 20).
Proof.
  cbv zeta. unfold dinoBottom, dinoYPos, App1.groundPosition.
  destruct d as [dy dvy ds]. cbn [y status].
  destruct ds; cbn [App1.getDinoDimensions cfg_height DINO_RUNNING_DIMENSIONS
                    DINO_DUCKING_DIMENSIONS];
    unfold GAME_HEIGHT, GROUND_Y, GAME_HEIGHT;
    repeat split; intros; try congruence; try lra;
    destruct (Qle_bool (250 - 20 - 30) dy) eqn:E;
    try (apply Qle_bool_iff in E); try (apply Qle_bool_false_iff in E); lra.
Qed.

Lemma drawn_player_bottom_witness :
  status (dino afterDuckRelease) <> st_ducking /\
  App1.groundPosition (status (dino afterDuckRelease)) < y (dino afterDuckRelease) /\
  dinoBottom (dino afterDuckRelease) < 20.
Proof.
  assert (H1 : status (dino afterDuckRelease) <> st_ducking)
    by (vm_compute; discriminate).
  assert (H2 : App1.groundPosition (status (dino afterDuckRelease))
               < y (dino afterDuckRelease)) by (vm_compute; reflexivity).
  split; [exact H1|]. split; [exact H2|].
  exact (proj2 (proj2 (drawn_player_bottom (dino afterDuckRelease))) H1 H2).
Defined.

(** ** The tick of part_002 and the session invariants *)

(** X21. The tick of part_002 keeps what a session of part_001 keeps: from a
    state with speed at least [INITIAL_SPEED], a non-negative score,
    well-placed obstacles in left-to-right order, a status other than
    [jumping], the player not below the ducking ground level and the
    countdown in [[0, MAX)], a frame with [dt >= 0] and draws in [[0,1)] leads
    to such a state again; and its score and speed never decrease, also on
    the frame that sets [gameOver]. *)
Theorem part_002_tick_keeps_invariants (g : Game) (dt rT rI : Q)
    (Hinv : sessionInvariant g) (Hdt : 0 <= dt)
    (HT : 0 <= rT /\ rT < 1) (HI : 0 <= rI /\ rI < 1) :
  sessionInvariant (App2.tick g dt rT rI) /\
  score g <= score (App2.tick g dt rT rI) /\
  speed g <= speed (App2.tick g dt rT rI).
Proof.
  destruct HT as [HT0 HT1]. destruct HI as [HI0 HI1].
  destruct (worldStep_invariant g dt rT rI Hinv Hdt HT0 HT1 HI0 HI1)
    as (Hwp' & Hso' & Hn0' & Hn1').
  destruct Hinv as (Hsp & Hsc & Hwp & Hso & Hst & Hy & Hn0 & Hn1).
  rewrite App2_tick_eq. unfold sessionInvariant.
  cbn [speed score obstacles dino nextObstacleTimeRef].
  assert (Hs0 : 0 <= speed g) by (unfold INITIAL_SPEED in Hsp; lra).
  pose proof (Qmult_le_0_compat _ _ Hs0 Hdt) as Hp.
  assert (Hd : speed g * dt / 10 == (speed g * dt) * (1 # 10)) by field.
  assert (Hyk : y (stepDino (dino g) dt)
                <= GROUND_Y - cfg_height DINO_DUCKING_DIMENSIONS).
  { unfold stepDino. cbn [y].
    pose proof (kinematics_le_ground (dino g) dt) as Hk.
    assert (Hg : App1.groundPosition (status (dino g))
                 <= GROUND_Y - cfg_height DINO_DUCKING_DIMENSIONS)
      by (destruct (status (dino g)); vm_compute; discriminate).
    lra. }
  unfold SPEED_INCREASE_RATE.
  repeat split; try assumption; try (rewrite Hd); lra.
Qed.

Lemma part_002_tick_keeps_invariants_witness :
  sessionInvariant (resetGame initialGame (1 # 2)) /\
  0 <= 1 # 60 /\ (0 <= 1 # 4 /\ 1 # 4 < 1) /\ (0 <= 1 # 2 /\ 1 # 2 < 1) /\
  sessionInvariant (App2.tick (resetGame initialGame (1 # 2)) (1 # 60) (1 # 4) (1 # 2)).
Proof.
  assert (Hr : 0 <= 1 # 2 /\ 1 # 2 < 1) by (split; [vm_compute; discriminate | reflexivity]).
  assert (Ht : 0 <= 1 # 4 /\ 1 # 4 < 1) by (split; [vm_compute; discriminate | reflexivity]).
  assert (Hdt : 0 <= 1 # 60) by (vm_compute; discriminate).
  pose proof (resetGame_invariant initialGame (1 # 2) (proj1 Hr) (proj2 Hr)) as Hinv.
  split; [exact Hinv|]. split; [exact Hdt|]. split; [exact Ht|]. split; [exact Hr|].
  exact (proj1 (part_002_tick_keeps_invariants
                  (resetGame initialGame (1 # 2)) (1 # 60) (1 # 4) (1 # 2)
                  Hinv Hdt Ht Hr)).
Defined.

(** ** Obstacles keep coming *)

Lemma tick_countdown (g : Game) (dt rT rI : Q) :
  0 < nextObstacleTimeRef g - dt * 1000 ->
  nextObstacleTimeRef (App1.tick g dt rT rI) = nextObstacleTimeRef g - dt * 1000.
Proof.
  intro Hpos.
  assert (E : snd (App1.worldStep g dt rT rI) = nextObstacleTimeRef g - dt * 1000).
  { unfold App1.worldStep.
    destruct (spawn_cases (scrollObstacles (obstacles g) (speed g) dt)
                (nextObstacleTimeRef g) (speed g) dt rT rI) as [[Hc _] | [_ Es]];
      [lra | rewrite Es; reflexivity]. }
  destruct (tick_cases g dt rT rI) as [[_ Et] | [_ Et]]; rewrite Et; exact E.
Qed.

(** X22. The wait for the next obstacle is never longer than the countdown:
    over any frames of part_001 whose lengths add up to at least the
    countdown (in ms), the spawn fires in one of them, that is, some frame
    finds the countdown [<= 0] after its decrement. *)
Theorem spawn_fires_within_countdown (frames : list Frame) (g : Game)
    (Hpos : 0 < nextObstacleTimeRef g)
    (Hsum : nextObstacleTimeRef g
            <= fold_right (fun f total => frameDt f * 1000 + total) 0 frames) :
  exists before f after,
    frames = before ++ f :: after /\
    nextObstacleTimeRef (runTicks g before) - frameDt f * 1000 <= 0.
Proof.
  revert g Hpos Hsum. induction frames as [|f frames IH]; intros g Hpos Hsum.
  - cbn in Hsum. lra.
  - cbn [fold_right] in Hsum.
    destruct (Qlt_le_dec 0 (nextObstacleTimeRef g - frameDt f * 1000)) as [Hc | Hc].
    + pose proof (tick_countdown g (frameDt f) (frameType f) (frameInterval f) Hc)
        as Et.
      destruct (IH (App1.tick g (frameDt f) (frameType f) (frameInterval f)))
        as (before & f' & after & -> & Hfire).
      * rewrite Et. exact Hc.
      * rewrite Et. lra.
      * exists (f :: before), f', after. split; [reflexivity | exact Hfire].
    + exists [], f, frames. split; [reflexivity | exact Hc].
Qed.

Lemma spawn_fires_within_countdown_witness :
  let frames := repeat (mkFrame (1 # 4) 0 0) 3 in
  0 < nextObstacleTimeRef aboutToCrash /\
  nextObstacleTimeRef aboutToCrash
    <= fold_right (fun f total => frameDt f * 1000 + total) 0 frames /\
  exists before f after,
    frames = before ++ f :: after /\
    nextObstacleTimeRef (runTicks aboutToCrash before) - frameDt f * 1000 <= 0.
Proof.
  cbv zeta.
  assert (H0 : 0 < nextObstacleTimeRef aboutToCrash) by reflexivity.
  assert (H1 : nextObstacleTimeRef aboutToCrash
               <= fold_right (fun f total => frameDt f * 1000 + total) 0
                    (repeat (mkFrame (1 # 4) 0 0) 3))
    by (vm_compute; discriminate).
  split; [exact H0|]. split; [exact H1|].
  exact (spawn_fires_within_countdown (repeat (mkFrame (1 # 4) 0 0) 3)
           aboutToCrash H0 H1).
Defined.

(** ** Clearing an obstacle *)

(** X23. In a session state of part_001, a frame with [dt >= 0] and draws in
    [[0,1)] that leaves the player's feet at least 50 pixels above the ground
    line ([y + height <= GROUND_Y - 50]) cannot end the game: every catalog
    obstacle is 50 high.  And a frame that leaves the player on its ground
    level while an obstacle of the frame's list overlaps the player's column
    always ends it. *)
Theorem clearance_of_catalog_obstacles (g : Game) (dt rT rI : Q)
    (Hinv : sessionInvariant g) (Hdt : 0 <= dt)
    (HT : 0 <= rT /\ rT < 1) (HI : 0 <= rI /\ rI < 1) :
  let dimensions := App1.getDinoDimensions (status (dino g)) in
  let newY := fst (App1.kinematics (dino g) dt) in
  (newY + cfg_height dimensions <= GROUND_Y - 50 ->
   App1.detectsCollision g dt rT rI = false /\
   gameState (App1.tick g dt rT rI) = gameState g) /\
  (newY == App1.groundPosition (status (dino g)) ->
   (exists o, In o (fst (App1.worldStep g dt rT rI)) /\
      x o < 50 + cfg_width dimensions /\ 50 < x o + width o) ->
   gameState (App1.tick g dt rT rI) = gameOver).
Proof.
  cbv zeta. destruct HT as [HT0 HT1]. destruct HI as [HI0 HI1].
  destruct (worldStep_invariant g dt rT rI Hinv Hdt HT0 HT1 HI0 HI1)
    as (Hwp' & _).
  assert (Hheight : forall o, In o (fst (App1.worldStep g dt rT rI)) ->
                      height o = 50).
  { intros o Ho. rewrite Forall_forall in Hwp'.
    destruct (Hwp' o Ho) as (Hcat & _).
    cbn in Hcat. destruct Hcat as [E | [E | []]]; inversion E; reflexivity. }
  split.
  - intro Hfeet.
    assert (D : App1.detectsCollision g dt rT rI = false).
    { destruct (App1.detectsCollision g dt rT rI) eqn:D; [|reflexivity].
      unfold App1.detectsCollision, hitsAny in D. apply existsb_exists in D.
      destruct D as (o & Ho & Hc). apply collides_iff in Hc.
      cbn [hx hy hw hh obstacleHitbox] in Hc. rewrite (Hheight o Ho) in Hc.
      destruct Hc as (_ & _ & _ & H4). lra. }
    split; [exact D|].
    destruct (tick_cases g dt rT rI) as [[D' _] | [_ E]];
      [congruence | rewrite E; reflexivity].
  - intros Hy (o & Ho & H1 & H2).
    assert (D : App1.detectsCollision g dt rT rI = true).
    { unfold App1.detectsCollision, hitsAny. apply existsb_exists.
      exists o. split; [exact Ho|]. apply collides_iff.
      cbn [hx hy hw hh obstacleHitbox]. rewrite (Hheight o Ho), Hy.
      unfold App1.groundPosition.
      assert (0 < cfg_height (App1.getDinoDimensions (status (dino g))))
        by (destruct (status (dino g)); reflexivity).
      repeat split; lra. }
    destruct (tick_cases g dt rT rI) as [[_ E] | [D' _]];
      [rewrite E; reflexivity | congruence].
Qed.

Lemma clearance_of_catalog_obstacles_witness :
  let g := mkGame running (mkDino 100 0 st_running)
                  [mkObstacle 60 25 50 "CACTUS_SMALL"] 10 0 INITIAL_SPEED 1000 500 in
  sessionInvariant g /\ 0 <= 1 # 60 /\
  (0 <= 1 # 4 /\ 1 # 4 < 1) /\ (0 <= 1 # 2 /\ 1 # 2 < 1) /\
  fst (App1.kinematics (dino g) (1 # 60)) + 47 <= GROUND_Y - 50 /\
  App1.detectsCollision g (1 # 60) (1 # 4) (1 # 2) = false.
Proof.
  cbv zeta.
  set (g := mkGame running (mkDino 100 0 st_running)
                   [mkObstacle 60 25 50 "CACTUS_SMALL"] 10 0 INITIAL_SPEED 1000 500).
  assert (Hinv : sessionInvariant g).
  { unfold sessionInvariant, g, wellPlaced, sortedByX.
    cbn [speed score obstacles dino nextObstacleTimeRef status y].
    repeat split; try discriminate; try (vm_compute; discriminate);
      try reflexivity.
    - constructor; [|constructor]. cbn.
      split; [auto|]. split; [reflexivity | vm_compute; discriminate].
    - repeat constructor. }
  assert (Hr : 0 <= 1 # 2 /\ 1 # 2 < 1) by (split; [vm_compute; discriminate | reflexivity]).
  assert (Ht : 0 <= 1 # 4 /\ 1 # 4 < 1) by (split; [vm_compute; discriminate | reflexivity]).
  assert (Hdt : 0 <= 1 # 60) by (vm_compute; discriminate).
  assert (Hfeet : fst (App1.kinematics (dino g) (1 # 60))
                  + cfg_height (App1.getDinoDimensions (status (dino g)))
                  <= GROUND_Y - 50) by (vm_compute; discriminate).
  split; [exact Hinv|]. split; [exact Hdt|]. split; [exact Ht|]. split; [exact Hr|].
  split; [exact Hfeet|].
  exact (proj1 (proj1 (clearance_of_catalog_obstacles g (1 # 60) (1 # 4) (1 # 2)
                         Hinv Hdt Ht Hr) Hfeet)).
Defined.
